(** * Sumo robot firmware (BTF 2023): action queue and analog mixing

    A shallow embedding of the three sketches of the repository:

    - [Final]  : the sketch with forward and backward dash, two-phase
                 spins, the joint clamp in [move] and the timed reconnect;
    - [Final32] : the same sketch with [float] as binary32;
    - [Sumo2]  : the second sketch of [sumo.ino] (one dash, spin phases,
                 reconnect timer);
    - [Sumo1]  : the mixer of the first sketch of [sumo.ino], which
                 leaves the clamp to [setSpeed];
    - [Sumo1Loop] : the scheduler and the loop of that first sketch
                 (plain spins, a [reset] that waits 100 ms).

    Conventions of the embedding.

    - [unsigned long] is 32 bits wide on the ESP32: such values are [Z]
      taken modulo [2^32], and the subtraction [millis() - mark] is
      written out with its wrap-around.
    - [float] has two readings.  [Float32], and the sketch [Final32] built
      on it, is IEEE 754 binary32 as the ESP32 computes it: every
      conversion, sum, product and quotient rounds to nearest, ties to
      even.  What is stated about the values of the response curve and of
      the joint clamp is stated there.  The other reading takes [float]
      values as exact rationals [Q], with the comparisons, the clamps and
      the branch structure of the source; it serves where the values are
      integers or where only signs, bounds and order are at stake.
    - The globals of a sketch, the clock and the writes to pins and to the
      Bluetooth stack are one record [World], threaded by a state monad.
      The clock advances in [delay] and between two iterations of [loop];
      [millis] reads it.
    - Serial diagnostics ([#ifdef debug]) have no effect on the globals or
      the pins and are left out. *)

From Stdlib Require Import ZArith QArith Qabs Qround Qminmax.
From Stdlib Require Import List Bool Sorted Lia Lqa.
From Stdlib Require String.
From Stdlib Require Import SpecFloat.
Import ListNotations.

Local Open Scope Z_scope.

(** ** Machine integers *)

Definition ULONG_MOD : Z := 2 ^ 32.
Definition INT_MIN : Z := - 2 ^ 31.
Definition INT_MAX : Z := 2 ^ 31 - 1.

(** Conversion to [unsigned long]. *)
Definition to_ulong (z : Z) : Z := z mod ULONG_MOD.

(** [a - b] on [unsigned long]. *)
Definition usub (a b : Z) : Z := (a - b) mod ULONG_MOD.

(** [abs] on [int]: negating [INT_MIN] wraps around to [INT_MIN]. *)
Definition abs_int (v : Z) : Z := if v =? INT_MIN then INT_MIN else Z.abs v.

(** ** Rational stand-ins for [float] *)

Definition Qltb (x y : Q) : bool := negb (Qle_bool y x).

(** [abs] on a [float], as the macro [((x)>0?(x):-(x))] computes it. *)
Definition absf (x : Q) : Q := if Qltb 0 x then x else (- x)%Q.

(** [max] on two [float]s, as the macro [((a)>(b)?(a):(b))] computes it. *)
Definition maxf (a b : Q) : Q := if Qltb b a then a else b.

(** The cast [(int)x] truncates toward zero. *)
Definition int_of_float (x : Q) : Z := Z.quot (Qnum x) (Zpos (Qden x)).

Definition EPSILON : Q := 1 # 1000.

(** [fmap]: the same text in each of the three sketches. *)
Definition fmap (x in_min in_max out_min out_max : Q) : Q :=
  if Qltb (absf (in_max - in_min)) EPSILON then in_max
  else ((x - in_min) * (out_max - out_min) / (in_max - in_min) + out_min)%Q.

(** ** Outputs *)

Inductive Event : Type :=
| DigitalWrite (pin : Z) (level : Z)
| AnalogWrite (pin : Z) (duty : Z)
| RemovePairedDevices
| PS4End
| PS4Begin.

Record Pins : Type := mkPins {
  PIN_R_SPD : Z; PIN_R_FWD : Z; PIN_R_BWD : Z;
  PIN_L_SPD : Z; PIN_L_FWD : Z; PIN_L_BWD : Z
}.

(** The two lines under "verify speeds". *)
Definition verify (x : Q) : Q :=
  if Qltb x (-1) then (-1)%Q else if Qltb 1 x then 1%Q else x.

(** Direction pins of one wheel and the magnitude left in the variable. *)
Definition direction (fwd bwd : Z) (x : Q) : list Event * Q :=
  if Qltb x 0 then ([DigitalWrite bwd 1; DigitalWrite fwd 0], (- x)%Q)
  else ([DigitalWrite fwd 1; DigitalWrite bwd 0], x).

(** [setSpeed(l, r)], the [#ifdef motor] branch. *)
Definition setSpeed_events (p : Pins) (l r : Q) : list Event :=
  let r := verify r in
  let l := verify l in
  let '(er, r) := direction (PIN_R_FWD p) (PIN_R_BWD p) r in
  let '(el, l) := direction (PIN_L_FWD p) (PIN_L_BWD p) l in
  er ++ el ++ [AnalogWrite (PIN_R_SPD p) (int_of_float (r * 255));
               AnalogWrite (PIN_L_SPD p) (int_of_float (l * 255))].

(** ** Response curve *)

Record Calibration : Type := mkCalibration {
  STICK_ZERO : Z; STICK_FINE : Z; STICK_MAX : Z;
  OUT_MIN : Z; OUT_MID : Z; OUT_MAX : Z
}.

(** [mapSpeedStick] and [mapRotStick] share this body; they differ in the
    three output constants. *)
Definition mapStick (c : Calibration) (val : Z) : Q :=
  let sign : Z := if val <? 0 then -1 else 1 in
  let val := abs_int val in
  if val <=? STICK_ZERO c then 0%Q
  else if val <=? STICK_FINE c then
    (inject_Z sign *
       fmap (inject_Z val) (inject_Z (STICK_ZERO c)) (inject_Z (STICK_FINE c))
            (inject_Z (OUT_MIN c)) (inject_Z (OUT_MID c)))%Q
  else
    (inject_Z sign *
       fmap (inject_Z val) (inject_Z (STICK_FINE c)) (inject_Z (STICK_MAX c))
            (inject_Z (OUT_MID c)) (inject_Z (OUT_MAX c)))%Q.

(** ** The world and its monad *)

Record Controller : Type := mkController {
  rx : Z; ly : Z;
  btn_x : bool; btn_sq : bool; btn_r1 : bool; btn_l1 : bool
}.

(** The globals of a sketch (over its own [Action] enumeration), the
    clock in milliseconds since boot, and the writes issued so far, oldest
    first, each stamped with the clock at which it was issued. *)
Record World (Act : Type) : Type := mkWorld {
  currentAction : Act;
  nextAction : Act;
  lastActionStart : Z;
  stickReconnectTimer : Z;
  clock : Z;
  trace : list (Z * Event)
}.

(** Events stamped with the time [t]. *)
Definition stamp (t : Z) (evs : list Event) : list (Z * Event) :=
  map (pair t) evs.

Arguments mkWorld {Act}.
Arguments currentAction {Act}.
Arguments nextAction {Act}.
Arguments lastActionStart {Act}.
Arguments stickReconnectTimer {Act}.
Arguments clock {Act}.
Arguments trace {Act}.

Section StateMonad.
Context {Act : Type}.

Definition M (A : Type) : Type := World Act -> A * World Act.

Definition ret {A} (a : A) : M A := fun w => (a, w).

Definition bind {A B} (m : M A) (k : A -> M B) : M B :=
  fun w => let (a, w') := m w in k a w'.

Definition gets {A} (f : World Act -> A) : M A := fun w => (f w, w).

Definition set_currentAction (a : Act) : M unit := fun w =>
  (tt, mkWorld a (nextAction w) (lastActionStart w)
               (stickReconnectTimer w) (clock w) (trace w)).

Definition set_nextAction (a : Act) : M unit := fun w =>
  (tt, mkWorld (currentAction w) a (lastActionStart w)
               (stickReconnectTimer w) (clock w) (trace w)).

Definition set_lastActionStart (t : Z) : M unit := fun w =>
  (tt, mkWorld (currentAction w) (nextAction w) t
               (stickReconnectTimer w) (clock w) (trace w)).

Definition set_stickReconnectTimer (t : Z) : M unit := fun w =>
  (tt, mkWorld (currentAction w) (nextAction w) (lastActionStart w)
               t (clock w) (trace w)).

(** [millis()] is the clock as an [unsigned long]. *)
Definition millis : M Z := gets (fun w => to_ulong (clock w)).

Definition delay (ms : Z) : M unit := fun w =>
  (tt, mkWorld (currentAction w) (nextAction w) (lastActionStart w)
               (stickReconnectTimer w) (clock w + ms) (trace w)).

Definition emit (evs : list Event) : M unit := fun w =>
  (tt, mkWorld (currentAction w) (nextAction w) (lastActionStart w)
               (stickReconnectTimer w) (clock w)
               (trace w ++ stamp (clock w) evs)).

Definition when (b : bool) (m : M unit) : M unit :=
  if b then m else ret tt.
End StateMonad.

Arguments M : clear implicits.

Declare Scope monad_scope.
Delimit Scope monad_scope with monad.
Notation "x <- m ;; k" := (bind m (fun x => k))
  (at level 61, m at next level, right associativity) : monad_scope.
Notation "m ;; k" := (bind m (fun _ => k))
  (at level 61, right associativity) : monad_scope.
Local Open Scope monad_scope.

(** [!!n]: a nonzero integer becomes 1. *)
Definition notnot (n : Z) : Z := if n =? 0 then 0 else 1.

(** One iteration's worth of input: the time that passed since the
    previous iteration ended, the liveness flag of the link, and the
    values the gamepad getters return. *)
Record Tick : Type := mkTick {
  idle : Z;
  connected : bool;
  pad : Controller
}.

(** ** The sketch in [part_000] *)

Module Final.

Inductive Action : Type := Neutral | DashF | DashB | SpinR | SpinL.

Definition Action_to_int (a : Action) : Z :=
  match a with
  | Neutral => 0 | DashF => 1 | DashB => 2 | SpinR => 3 | SpinL => 4
  end.

Definition Action_eqb (a b : Action) : bool :=
  Action_to_int a =? Action_to_int b.

Definition pins : Pins := mkPins 25 32 33 18 19 21.
Definition STICK_RECONNECT_DELAY : Z := 3000.

Definition speedCal : Calibration := mkCalibration 10 100 128 20 70 100.
Definition rotCal : Calibration := mkCalibration 10 100 128 20 60 80.
Definition ROT_LEAD : Q := 1.
Definition ROT_TRAIL : Q := 1.

Definition DASH_DURATION : Z := 300.
Definition SPIN_DURATION : Z := 300.
Definition SPIN_ACTIVE : Z := 100.
Definition DASH_SPEED : Q := 1.
Definition SPIN_SPEED : Q := 1.
Definition ACTION_DEBOUNCE : Z := 200.

(** The globals as they are when [setup] starts, [boot] milliseconds
    after power-up. *)
Definition power_on (boot : Z) : World Action :=
  mkWorld Neutral Neutral (to_ulong (-100000)) 0 boot [].

Definition checkDebounce (deb : Z) : M Action bool :=
  t <- millis ;;
  mark <- gets lastActionStart ;;
  ret (deb <? usub t mark).

Definition removePairedDevices : M Action unit := emit [RemovePairedDevices].

Definition setSpeed (l r : Q) : M Action unit := emit (setSpeed_events pins l r).

Definition mapSpeedStick (val : Z) : Q := mapStick speedCal val.
Definition mapRotStick (val : Z) : Q := mapStick rotCal val.

(** [rotR] and [rotL] of [move], weighted by lead and trail. *)
Definition rotation_split (rot : Q) : Q * Q :=
  let rotR := (- rot)%Q in
  let rotL := rot in
  if Qltb 0 rotR then (rotR * ROT_LEAD, rotL * ROT_TRAIL)%Q
  else (rotR * ROT_TRAIL, rotL * ROT_LEAD)%Q.

(** The last lines of [move]: both sums divided by the larger
    magnitude when it exceeds 1. *)
Definition joint_clamp (l r : Q) : Q * Q :=
  if Qltb 1 (maxf (absf l) (absf r)) then
    let mx := maxf (absf l) (absf r) in
    (l / mx, r / mx)%Q
  else (l, r).

(** The two wheel values [move] passes to [setSpeed], left first. *)
Definition mix (speed rot : Q) : Q * Q :=
  let '(rotR, rotL) := rotation_split rot in
  joint_clamp (speed + rotL) (speed + rotR).

Definition move (speedStick rotStick : Z) : M Action unit :=
  let speed := (mapSpeedStick speedStick / inject_Z (STICK_MAX speedCal))%Q in
  let rot := (mapRotStick rotStick / inject_Z (STICK_MAX rotCal))%Q in
  let '(l, r) := mix speed rot in
  setSpeed l r.

Definition dashF : M Action unit := setSpeed DASH_SPEED DASH_SPEED.
Definition dashB : M Action unit := setSpeed (- DASH_SPEED) (- DASH_SPEED).

Definition spinR : M Action unit :=
  past <- checkDebounce SPIN_ACTIVE ;;
  if negb past then setSpeed (SPIN_SPEED * ROT_LEAD) (- SPIN_SPEED * ROT_TRAIL)
  else setSpeed 0 0.

Definition spinL : M Action unit :=
  past <- checkDebounce SPIN_ACTIVE ;;
  if negb past then setSpeed (- SPIN_SPEED * ROT_TRAIL) (SPIN_SPEED * ROT_LEAD)
  else setSpeed 0 0.

Definition reset : M Action unit := setSpeed 0 0.

Definition getCooldown (act : Action) : Z :=
  if Action_eqb act DashF || Action_eqb act DashB then DASH_DURATION
  else if negb (Action_eqb act Neutral) then SPIN_DURATION
  else 0.

Definition checkCooldown (act : Action) : M Action bool :=
  checkDebounce (getCooldown act).

Definition processActionQueue : M Action Z :=
  cur <- gets currentAction ;;
  (if negb (Action_eqb cur Neutral) then
     past <- checkCooldown cur ;;
     if past then
       when (Action_eqb cur SpinR || Action_eqb cur SpinL) reset ;;
       nxt <- gets nextAction ;;
       set_currentAction nxt ;;
       set_nextAction Neutral ;;
       cur' <- gets currentAction ;;
       if negb (Action_eqb cur' Neutral) then
         t <- millis ;; set_lastActionStart t
       else ret tt
     else ret tt
   else
     nxt <- gets nextAction ;;
     if negb (Action_eqb nxt Neutral) then
       set_currentAction nxt ;;
       set_nextAction Neutral ;;
       t <- millis ;;
       set_lastActionStart t
     else ret tt) ;;
  cur <- gets currentAction ;;
  nxt <- gets nextAction ;;
  ret (notnot (Action_to_int cur) + notnot (Action_to_int nxt)).

Definition executeAction : M Action unit :=
  cur <- gets currentAction ;;
  if Action_eqb cur DashF then dashF
  else if Action_eqb cur DashB then dashB
  else if Action_eqb cur SpinR then spinR
  else if Action_eqb cur SpinL then spinL
  else ret tt.

(** The request made by one button: [nextAction] is written unless the
    action is the running one and the debounce has not passed. *)
Definition request (a : Action) : M Action unit :=
  cur <- gets currentAction ;;
  if negb (Action_eqb cur a) then set_nextAction a
  else
    past <- checkDebounce ACTION_DEBOUNCE ;;
    if past then set_nextAction a else ret tt.

Definition processController (stick : Controller) (actionQueueStatus : Z)
  : M Action unit :=
  when (negb (actionQueueStatus =? 2))
    (if btn_x stick then request DashF
     else if btn_sq stick then request DashB
     else if btn_r1 stick then request SpinR
     else if btn_l1 stick then request SpinL
     else ret tt) ;;
  when (actionQueueStatus =? 0) (move (ly stick) (rx stick)).

Definition setup : M Action unit :=
  emit [PS4Begin] ;;
  set_currentAction Neutral ;;
  set_nextAction Neutral ;;
  reset.

Definition loop (isConnected : bool) (stick : Controller) : M Action unit :=
  if isConnected then
    actionQueueStatus <- processActionQueue ;;
    executeAction ;;
    processController stick actionQueueStatus ;;
    delay 50
  else
    reset ;;
    t <- millis ;;
    timer <- gets stickReconnectTimer ;;
    if STICK_RECONNECT_DELAY <? usub t timer then
      removePairedDevices ;;
      emit [PS4End] ;;
      emit [PS4Begin] ;;
      t' <- millis ;;
      set_stickReconnectTimer t'
    else ret tt.

(** Successive iterations of [loop]; the clock moves on by [idle]
    before each. *)
Fixpoint run (ticks : list Tick) : M Action unit :=
  match ticks with
  | [] => ret tt
  | tk :: rest =>
      delay (idle tk) ;; loop (connected tk) (pad tk) ;; run rest
  end.

End Final.

(** ** The second sketch of [sumo.ino] *)

Module Sumo2.

Inductive Action : Type := Neutral | Dash | SpinR | SpinL.

Definition Action_to_int (a : Action) : Z :=
  match a with Neutral => 0 | Dash => 1 | SpinR => 2 | SpinL => 3 end.

Definition Action_eqb (a b : Action) : bool :=
  Action_to_int a =? Action_to_int b.

Definition pins : Pins := mkPins 25 32 33 0 0 0.
Definition STICK_RECONNECT_DELAY : Z := 3000.

Definition speedCal : Calibration := mkCalibration 10 100 128 15 23 70.
Definition rotCal : Calibration := mkCalibration 10 100 128 15 20 30.
Definition ROT_LEAD : Q := 1.
Definition ROT_TRAIL : Q := 1.

Definition DASH_DURATION : Z := 300.
Definition SPIN_DURATION : Z := 300.
Definition SPIN_ACTIVE : Z := 100.
Definition DASH_SPEED : Q := 1.
Definition SPIN_SPEED : Q := 1.
Definition ACTION_DEBOUNCE : Z := 200.

Definition power_on (boot : Z) : World Action :=
  mkWorld Neutral Neutral (to_ulong (-100000)) 0 boot [].

Definition checkDebounce (deb : Z) : M Action bool :=
  t <- millis ;;
  mark <- gets lastActionStart ;;
  ret (deb <? usub t mark).

Definition removePairedDevices : M Action unit := emit [RemovePairedDevices].

Definition setSpeed (l r : Q) : M Action unit :=
  emit (setSpeed_events pins l r).

Definition mapSpeedStick (val : Z) : Q := mapStick speedCal val.
Definition mapRotStick (val : Z) : Q := mapStick rotCal val.

Definition rotation_split (rot : Q) : Q * Q :=
  let rotR := (- rot)%Q in
  let rotL := rot in
  if Qltb 0 rotR then (rotR * ROT_LEAD, rotL * ROT_TRAIL)%Q
  else (rotR * ROT_TRAIL, rotL * ROT_LEAD)%Q.

(** The two wheel values [move] passes to [setSpeed]: no joint clamp
    here. *)
Definition mix (speed rot : Q) : Q * Q :=
  let '(rotR, rotL) := rotation_split rot in
  ((speed + rotL)%Q, (speed + rotR)%Q).

Definition move (speedStick rotStick : Z) : M Action unit :=
  let speed := (mapSpeedStick speedStick / inject_Z (STICK_MAX speedCal))%Q in
  let rot := (mapRotStick rotStick / inject_Z (STICK_MAX rotCal))%Q in
  let '(l, r) := mix speed rot in
  setSpeed l r.

Definition dash : M Action unit := setSpeed DASH_SPEED DASH_SPEED.

(** The test is [checkDebounce(100)], not negated. *)
Definition spinR : M Action unit :=
  past <- checkDebounce 100 ;;
  if past then setSpeed (SPIN_SPEED * ROT_LEAD) (- SPIN_SPEED * ROT_TRAIL)
  else setSpeed 0 0.

Definition spinL : M Action unit :=
  past <- checkDebounce 100 ;;
  if past then setSpeed (- SPIN_SPEED * ROT_TRAIL) (SPIN_SPEED * ROT_LEAD)
  else setSpeed 0 0.

Definition reset : M Action unit := setSpeed 0 0.

Definition getCooldown (act : Action) : Z :=
  if Action_eqb act Dash then DASH_DURATION
  else if negb (Action_eqb act Neutral) then SPIN_DURATION
  else 0.

Definition checkCooldown (act : Action) : M Action bool :=
  checkDebounce (getCooldown act).

Definition processActionQueue : M Action Z :=
  cur <- gets currentAction ;;
  (if negb (Action_eqb cur Neutral) then
     past <- checkCooldown cur ;;
     if past then
       when (Action_eqb cur SpinR || Action_eqb cur SpinL) reset ;;
       nxt <- gets nextAction ;;
       set_currentAction nxt ;;
       set_nextAction Neutral ;;
       cur' <- gets currentAction ;;
       if negb (Action_eqb cur' Neutral) then
         t <- millis ;; set_lastActionStart t
       else ret tt
     else ret tt
   else
     nxt <- gets nextAction ;;
     if negb (Action_eqb nxt Neutral) then
       set_currentAction nxt ;;
       set_nextAction Neutral ;;
       t <- millis ;;
       set_lastActionStart t
     else ret tt) ;;
  cur <- gets currentAction ;;
  nxt <- gets nextAction ;;
  ret (notnot (Action_to_int cur) + notnot (Action_to_int nxt)).

Definition executeAction : M Action unit :=
  cur <- gets currentAction ;;
  if Action_eqb cur Dash then dash
  else if Action_eqb cur SpinR then spinR
  else if Action_eqb cur SpinL then spinL
  else ret tt.

Definition request (a : Action) : M Action unit :=
  cur <- gets currentAction ;;
  if negb (Action_eqb cur a) then set_nextAction a
  else
    past <- checkDebounce ACTION_DEBOUNCE ;;
    if past then set_nextAction a else ret tt.

Definition processController (stick : Controller) (actionQueueStatus : Z)
  : M Action unit :=
  when (negb (actionQueueStatus =? 2))
    (if btn_x stick then request Dash
     else if btn_r1 stick then request SpinR
     else if btn_l1 stick then request SpinL
     else ret tt) ;;
  when (actionQueueStatus =? 0) (move (ly stick) (rx stick)).

Definition setup : M Action unit :=
  emit [PS4Begin] ;;
  set_currentAction Neutral ;;
  set_nextAction Neutral ;;
  reset.

(** [debug] and [motor] are both defined: the loop waits 50 ms.  The
    reconnect branch calls [removePairedDevices] and leaves
    [stickReconnectTimer] as it is. *)
Definition loop (isConnected : bool) (stick : Controller) : M Action unit :=
  if isConnected then
    actionQueueStatus <- processActionQueue ;;
    executeAction ;;
    processController stick actionQueueStatus ;;
    delay 50
  else
    reset ;;
    t <- millis ;;
    timer <- gets stickReconnectTimer ;;
    if STICK_RECONNECT_DELAY <? usub t timer then removePairedDevices
    else ret tt.

Fixpoint run (ticks : list Tick) : M Action unit :=
  match ticks with
  | [] => ret tt
  | tk :: rest =>
      delay (idle tk) ;; loop (connected tk) (pad tk) ;; run rest
  end.

End Sumo2.

(** ** The first sketch of [sumo.ino] *)

Module Sumo1.

Definition pins : Pins := mkPins 25 32 33 0 0 0.
Definition speedCal : Calibration := mkCalibration 10 100 128 15 23 70.
Definition rotCal : Calibration := mkCalibration 10 100 128 15 20 30.
Definition ROT_LEAD : Q := 1.
Definition ROT_TRAIL : Q := 1.

Definition mapSpeedStick (val : Z) : Q := mapStick speedCal val.
Definition mapRotStick (val : Z) : Q := mapStick rotCal val.

Definition rotation_split (rot : Q) : Q * Q :=
  let rotR := (- rot)%Q in
  let rotL := rot in
  if Qltb 0 rotR then (rotR * ROT_LEAD, rotL * ROT_TRAIL)%Q
  else (rotR * ROT_TRAIL, rotL * ROT_LEAD)%Q.

(** [move] hands the two sums to [setSpeed] as they are. *)
Definition mix (speed rot : Q) : Q * Q :=
  let '(rotR, rotL) := rotation_split rot in
  ((speed + rotL)%Q, (speed + rotR)%Q).

(** The pin writes of [move(speedStick, rotStick)]. *)
Definition move (speedStick rotStick : Z) : list Event :=
  let speed := (mapSpeedStick speedStick / inject_Z (STICK_MAX speedCal))%Q in
  let rot := (mapRotStick rotStick / inject_Z (STICK_MAX rotCal))%Q in
  let '(l, r) := mix speed rot in
  setSpeed_events pins l r.

End Sumo1.

(** ** The scheduler and the loop of the first sketch of [sumo.ino] *)

Module Sumo1Loop.

Inductive Action : Type := Neutral | Dash | SpinR | SpinL.

Definition Action_to_int (a : Action) : Z :=
  match a with Neutral => 0 | Dash => 1 | SpinR => 2 | SpinL => 3 end.

Definition Action_eqb (a b : Action) : bool :=
  Action_to_int a =? Action_to_int b.

Definition DASH_DURATION : Z := 300.
Definition SPIN_DURATION : Z := 300.
Definition ACTION_DEBOUNCE : Z := 200.

Definition power_on (boot : Z) : World Action :=
  mkWorld Neutral Neutral (to_ulong (-100000)) 0 boot [].

Definition setSpeed (l r : Q) : M Action unit :=
  emit (setSpeed_events Sumo1.pins l r).

Definition move (speedStick rotStick : Z) : M Action unit :=
  emit (Sumo1.move speedStick rotStick).

Definition dash : M Action unit := setSpeed 1 1.
Definition spinR : M Action unit := setSpeed 1 (-1).
Definition spinL : M Action unit := setSpeed (-1) 1.

(** [reset] stops the wheels and then waits. *)
Definition reset : M Action unit := setSpeed 0 0 ;; delay 100.

Definition getCooldown (act : Action) : Z :=
  if Action_eqb act Dash then DASH_DURATION
  else if negb (Action_eqb act Neutral) then SPIN_DURATION
  else 0.

Definition checkCooldown (act : Action) : M Action bool :=
  t <- millis ;;
  mark <- gets lastActionStart ;;
  ret (getCooldown act <? usub t mark).

Definition checkDebounce : M Action bool :=
  t <- millis ;;
  mark <- gets lastActionStart ;;
  ret (ACTION_DEBOUNCE <? usub t mark).

Definition processActionQueue : M Action Z :=
  cur <- gets currentAction ;;
  (if negb (Action_eqb cur Neutral) then
     past <- checkCooldown cur ;;
     if past then
       when (Action_eqb cur SpinR || Action_eqb cur SpinL) reset ;;
       nxt <- gets nextAction ;;
       set_currentAction nxt ;;
       set_nextAction Neutral ;;
       cur' <- gets currentAction ;;
       if negb (Action_eqb cur' Neutral) then
         t <- millis ;; set_lastActionStart t
       else ret tt
     else ret tt
   else
     nxt <- gets nextAction ;;
     if negb (Action_eqb nxt Neutral) then
       set_currentAction nxt ;;
       set_nextAction Neutral ;;
       t <- millis ;;
       set_lastActionStart t
     else ret tt) ;;
  cur <- gets currentAction ;;
  nxt <- gets nextAction ;;
  ret (notnot (Action_to_int cur) + notnot (Action_to_int nxt)).

Definition executeAction : M Action unit :=
  cur <- gets currentAction ;;
  if Action_eqb cur Dash then dash
  else if Action_eqb cur SpinR then spinR
  else if Action_eqb cur SpinL then spinL
  else ret tt.

Definition request (a : Action) : M Action unit :=
  cur <- gets currentAction ;;
  if negb (Action_eqb cur a) then set_nextAction a
  else
    past <- checkDebounce ;;
    if past then set_nextAction a else ret tt.

Definition processController (stick : Controller) (actionQueueStatus : Z)
  : M Action unit :=
  when (negb (actionQueueStatus =? 2))
    (if btn_x stick then request Dash
     else if btn_r1 stick then request SpinR
     else if btn_l1 stick then request SpinL
     else ret tt) ;;
  when (actionQueueStatus =? 0) (move (ly stick) (rx stick)).

Definition setup : M Action unit :=
  emit [PS4Begin] ;;
  set_nextAction Neutral ;;
  set_currentAction Neutral ;;
  reset.

(** [debug] is defined (as [FALSE]), so [#ifdef debug] holds and the loop
    waits 50 ms. *)
Definition loop (isConnected : bool) (stick : Controller) : M Action unit :=
  if isConnected then
    actionQueueStatus <- processActionQueue ;;
    when (negb (actionQueueStatus =? 0)) executeAction ;;
    processController stick actionQueueStatus ;;
    delay 50
  else reset.

End Sumo1Loop.

(** ** [float] as IEEE 754 binary32 *)

Module Float32.

Definition prec : Z := 24.
Definition emax : Z := 128.

Definition float : Type := spec_float.

(** Conversion of an [int], rounding to nearest, ties to even. *)
Definition of_int (z : Z) : float := binary_normalize prec emax z 0 false.

Definition add (x y : float) : float := SFadd prec emax x y.
Definition sub (x y : float) : float := SFsub prec emax x y.
Definition mul (x y : float) : float := SFmul prec emax x y.
Definition div (x y : float) : float := SFdiv prec emax x y.
Definition opp (x : float) : float := SFopp x.
Definition ltb (x y : float) : bool := SFltb x y.


(** The rational a finite float stands for (0 for the others). *)
Definition to_Q (x : float) : Q :=
  match x with
  | S754_finite s m e =>
      let n := if s then Zneg m else Zpos m in
      match e with
      | Zneg p => Qmake n (2 ^ p)
      | _ => inject_Z (n * 2 ^ e)
      end
  | _ => 0%Q
  end.

(** The cast [(int)x]: toward zero (0 where the cast is undefined). *)
Definition to_int (x : float) : Z :=
  match x with
  | S754_finite s m e =>
      let n := if s then Zneg m else Zpos m in
      match e with
      | Zneg p => Z.quot n (Zpos (2 ^ p))
      | _ => n * 2 ^ e
      end
  | _ => 0
  end.

(** [abs] and [max] on floats, as the macros compute them. *)
Definition absf (x : float) : float := if ltb (of_int 0) x then x else opp x.
Definition maxf (a b : float) : float := if ltb b a then a else b.

(** [const float EPSILON = 0.001]: the float nearest to 1/1000. *)
Definition EPSILON : float := div (of_int 1) (of_int 1000).

Definition fmap (x in_min in_max out_min out_max : float) : float :=
  if ltb (absf (sub in_max in_min)) EPSILON then in_max
  else add (div (mul (sub x in_min) (sub out_max out_min))
                (sub in_max in_min))
           out_min.

Definition mapStick (c : Calibration) (val : Z) : float :=
  let sign : Z := if val <? 0 then -1 else 1 in
  let val := abs_int val in
  if val <=? STICK_ZERO c then of_int 0
  else if val <=? STICK_FINE c then
    mul (of_int sign)
        (fmap (of_int val) (of_int (STICK_ZERO c)) (of_int (STICK_FINE c))
              (of_int (OUT_MIN c)) (of_int (OUT_MID c)))
  else
    mul (of_int sign)
        (fmap (of_int val) (of_int (STICK_FINE c)) (of_int (STICK_MAX c))
              (of_int (OUT_MID c)) (of_int (OUT_MAX c))).

End Float32.

(** ** The sketch in [part_000] with [float] as binary32 *)

(** The enumeration, the timing tests and the queue are those of
    [Final]; what computes on [float] is written again over
    [Float32]. *)

Module Final32.
Import Float32.

Definition ROT_LEAD : float := of_int 1.
Definition ROT_TRAIL : float := of_int 1.
Definition DASH_SPEED : float := of_int 1.
Definition SPIN_SPEED : float := of_int 1.

Definition mapSpeedStick (val : Z) : float := mapStick Final.speedCal val.
Definition mapRotStick (val : Z) : float := mapStick Final.rotCal val.

(** The two lines under "verify speeds". *)
Definition verify (x : float) : float :=
  if ltb x (of_int (-1)) then of_int (-1)
  else if ltb (of_int 1) x then of_int 1 else x.

Definition direction (fwd bwd : Z) (x : float) : list Event * float :=
  if ltb x (of_int 0) then ([DigitalWrite bwd 1; DigitalWrite fwd 0], opp x)
  else ([DigitalWrite fwd 1; DigitalWrite bwd 0], x).

(** [setSpeed(l, r)], the [#ifdef motor] branch. *)
Definition setSpeed_events (p : Pins) (l r : float) : list Event :=
  let r := verify r in
  let l := verify l in
  let '(er, r) := direction (PIN_R_FWD p) (PIN_R_BWD p) r in
  let '(el, l) := direction (PIN_L_FWD p) (PIN_L_BWD p) l in
  er ++ el ++ [AnalogWrite (PIN_R_SPD p) (to_int (mul r (of_int 255)));
               AnalogWrite (PIN_L_SPD p) (to_int (mul l (of_int 255)))].

(** [speed] and [rot] of [move]. *)
Definition stick_speed (speedStick : Z) : float :=
  div (mapSpeedStick speedStick) (of_int (STICK_MAX Final.speedCal)).

Definition stick_rot (rotStick : Z) : float :=
  div (mapRotStick rotStick) (of_int (STICK_MAX Final.rotCal)).

(** [rotR] and [rotL] of [move], weighted by lead and trail. *)
Definition rotation_split (rot : float) : float * float :=
  let rotR := opp rot in
  let rotL := rot in
  if ltb (of_int 0) rotR then (mul rotR ROT_LEAD, mul rotL ROT_TRAIL)
  else (mul rotR ROT_TRAIL, mul rotL ROT_LEAD).

(** The sums [l] and [r] of [move] before the joint clamp, left first. *)
Definition sums (speed rot : float) : float * float :=
  let '(rotR, rotL) := rotation_split rot in
  (add speed rotL, add speed rotR).

(** The last lines of [move]: both sums divided by the larger magnitude
    when it exceeds 1. *)
Definition joint_clamp (l r : float) : float * float :=
  if ltb (of_int 1) (maxf (absf l) (absf r)) then
    let mx := maxf (absf l) (absf r) in
    (div l mx, div r mx)
  else (l, r).

(** The two wheel values [move] passes to [setSpeed], left first. *)
Definition mix (speed rot : float) : float * float :=
  let '(l, r) := sums speed rot in
  joint_clamp l r.

(** The pin writes of [move(speedStick, rotStick)]. *)
Definition move_events (speedStick rotStick : Z) : list Event :=
  let '(l, r) := mix (stick_speed speedStick) (stick_rot rotStick) in
  setSpeed_events Final.pins l r.

Definition setSpeed (l r : float) : M Final.Action unit :=
  emit (setSpeed_events Final.pins l r).

Definition move (speedStick rotStick : Z) : M Final.Action unit :=
  emit (move_events speedStick rotStick).

Definition dashF : M Final.Action unit := setSpeed DASH_SPEED DASH_SPEED.
Definition dashB : M Final.Action unit :=
  setSpeed (opp DASH_SPEED) (opp DASH_SPEED).

Definition spinR : M Final.Action unit :=
  past <- Final.checkDebounce Final.SPIN_ACTIVE ;;
  if negb past
  then setSpeed (mul SPIN_SPEED ROT_LEAD) (mul (opp SPIN_SPEED) ROT_TRAIL)
  else setSpeed (of_int 0) (of_int 0).

Definition spinL : M Final.Action unit :=
  past <- Final.checkDebounce Final.SPIN_ACTIVE ;;
  if negb past
  then setSpeed (mul (opp SPIN_SPEED) ROT_TRAIL) (mul SPIN_SPEED ROT_LEAD)
  else setSpeed (of_int 0) (of_int 0).

Definition reset : M Final.Action unit := setSpeed (of_int 0) (of_int 0).

Definition processActionQueue : M Final.Action Z :=
  cur <- gets currentAction ;;
  (if negb (Final.Action_eqb cur Final.Neutral) then
     past <- Final.checkCooldown cur ;;
     if past then
       when (Final.Action_eqb cur Final.SpinR
             || Final.Action_eqb cur Final.SpinL) reset ;;
       nxt <- gets nextAction ;;
       set_currentAction nxt ;;
       set_nextAction Final.Neutral ;;
       cur' <- gets currentAction ;;
       if negb (Final.Action_eqb cur' Final.Neutral) then
         t <- millis ;; set_lastActionStart t
       else ret tt
     else ret tt
   else
     nxt <- gets nextAction ;;
     if negb (Final.Action_eqb nxt Final.Neutral) then
       set_currentAction nxt ;;
       set_nextAction Final.Neutral ;;
       t <- millis ;;
       set_lastActionStart t
     else ret tt) ;;
  cur <- gets currentAction ;;
  nxt <- gets nextAction ;;
  ret (notnot (Final.Action_to_int cur) + notnot (Final.Action_to_int nxt)).

Definition executeAction : M Final.Action unit :=
  cur <- gets currentAction ;;
  if Final.Action_eqb cur Final.DashF then dashF
  else if Final.Action_eqb cur Final.DashB then dashB
  else if Final.Action_eqb cur Final.SpinR then spinR
  else if Final.Action_eqb cur Final.SpinL then spinL
  else ret tt.

Definition processController (stick : Controller) (actionQueueStatus : Z)
  : M Final.Action unit :=
  when (negb (actionQueueStatus =? 2))
    (if btn_x stick then Final.request Final.DashF
     else if btn_sq stick then Final.request Final.DashB
     else if btn_r1 stick then Final.request Final.SpinR
     else if btn_l1 stick then Final.request Final.SpinL
     else ret tt) ;;
  when (actionQueueStatus =? 0) (move (ly stick) (rx stick)).

Definition loop (isConnected : bool) (stick : Controller)
  : M Final.Action unit :=
  if isConnected then
    actionQueueStatus <- processActionQueue ;;
    executeAction ;;
    processController stick actionQueueStatus ;;
    delay 50
  else
    reset ;;
    t <- millis ;;
    timer <- gets stickReconnectTimer ;;
    if Final.STICK_RECONNECT_DELAY <? usub t timer then
      Final.removePairedDevices ;;
      emit [PS4End] ;;
      emit [PS4Begin] ;;
      t' <- millis ;;
      set_stickReconnectTimer t'
    else ret tt.

End Final32.

(** ** Specification-side definitions *)

(** Linear interpolation of [x] from [[a, b]] to [[c, d]]. *)
Definition lerp (x a b c d : Q) : Q := (c + (x - a) * (d - c) / (b - a))%Q.

(** The response curve as the specification words it, on a magnitude. *)
Definition shape_magnitude (c : Calibration) (m : Z) : Q :=
  if m <=? STICK_ZERO c then 0%Q
  else if m <=? STICK_FINE c then
    lerp (inject_Z m) (inject_Z (STICK_ZERO c)) (inject_Z (STICK_FINE c))
         (inject_Z (OUT_MIN c)) (inject_Z (OUT_MID c))
  else
    lerp (inject_Z m) (inject_Z (STICK_FINE c)) (inject_Z (STICK_MAX c))
         (inject_Z (OUT_MID c)) (inject_Z (OUT_MAX c)).

Definition shape (c : Calibration) (raw : Z) : Q :=
  (inject_Z (Z.sgn raw) * shape_magnitude c (Z.abs raw))%Q.

(** A calibration whose breakpoints are apart and whose outputs are
    positive. *)
Definition well_spread (c : Calibration) : Prop :=
  0 <= STICK_ZERO c < STICK_FINE c /\ STICK_FINE c < STICK_MAX c /\
  0 < OUT_MIN c <= OUT_MID c /\ OUT_MID c <= OUT_MAX c.

(** Time since [lastActionStart], as [millis() - lastActionStart]
    computes it. *)
Definition elapsed {Act : Type} (w : World Act) : Z :=
  usub (to_ulong (clock w)) (lastActionStart w).

(** Buttons with the action each requests, highest priority first. *)
Definition priority : list ((Controller -> bool) * Final.Action) :=
  [(btn_x, Final.DashF); (btn_sq, Final.DashB);
   (btn_r1, Final.SpinR); (btn_l1, Final.SpinL)].

(** The action of the highest-priority asserted button, if any. *)
Definition requested (stick : Controller) : option Final.Action :=
  option_map snd (find (fun b => fst b stick) priority).

(** Admission of a request for [a]: it differs from the running action,
    or more than the debounce has passed since the running one began. *)
Definition admitted (a : Final.Action) (w : World Final.Action) : bool :=
  negb (Final.Action_eqb a (currentAction w)) ||
  (Final.ACTION_DEBOUNCE <? elapsed w).

Definition is_spin (a : Final.Action) : bool :=
  Final.Action_eqb a Final.SpinR || Final.Action_eqb a Final.SpinL.

(** The status as the specification words it. *)
Definition status_of (w : World Final.Action) : Z :=
  match currentAction w, nextAction w with
  | Final.Neutral, _ => 0
  | _, Final.Neutral => 1
  | _, _ => 2
  end.

(** The wheel values (left, right) of a spin [t] ms after it began, as
    the specification gives them. *)
Definition spin_command (a : Final.Action) (t : Z) : Q * Q :=
  if t <=? Final.SPIN_ACTIVE then
    match a with
    | Final.SpinR =>
        (Final.SPIN_SPEED * Final.ROT_LEAD, - Final.SPIN_SPEED * Final.ROT_TRAIL)%Q
    | _ =>
        (- Final.SPIN_SPEED * Final.ROT_TRAIL, Final.SPIN_SPEED * Final.ROT_LEAD)%Q
    end
  else (0%Q, 0%Q).

Definition is_attempt (e : Z * Event) : bool :=
  match snd e with RemovePairedDevices => true | _ => false end.

(** The times at which [removePairedDevices] was called, oldest first. *)
Definition attempt_times (tr : list (Z * Event)) : list Z :=
  map fst (filter is_attempt tr).

Definition attempts {Act : Type} (w : World Act) : list Z :=
  attempt_times (trace w).

(** [t'] comes more than [gap] after [t]. *)
Definition apart (gap t t' : Z) : Prop := gap < t' - t.

(** Any two attempts are more than [gap] apart. *)
Definition rate_limited (gap : Z) (ts : list Z) : Prop :=
  StronglySorted (apart gap) ts.

(** What the reconnect branch of [Final.loop] maintains: the timer holds
    the low 32 bits of the time [T] of the latest attempt (of power-up
    before the first), no attempt is later than [T], and [T] is not in
    the future. *)
Definition reconnect_inv (w : World Final.Action) : Prop :=
  exists T : Z,
    stickReconnectTimer w = to_ulong T /\
    T <= clock w /\
    Forall (fun t => t <= T) (attempts w) /\
    rate_limited Final.STICK_RECONNECT_DELAY (attempts w).

(** A computation that leaves the reconnect timer alone, makes no
    attempt and does not turn the clock back. *)
Definition quiet {Act A : Type} (m : M Act A) : Prop :=
  forall w : World Act,
    stickReconnectTimer (snd (m w)) = stickReconnectTimer w /\
    clock w <= clock (snd (m w)) /\
    attempts (snd (m w)) = attempts w.

(** ** Definitions for the properties beyond the claims *)

(** The world [w] with [evs] written at its current time. *)
Definition written {Act : Type} (w : World Act) (evs : list Event)
  : World Act :=
  mkWorld (currentAction w) (nextAction w) (lastActionStart w)
          (stickReconnectTimer w) (clock w) (trace w ++ stamp (clock w) evs).

(** One call of [setSpeed], whatever its arguments. *)
Definition wheel_command (evs : list Event) : Prop :=
  exists l r : Q, evs = setSpeed_events Final.pins l r.

(** No button asserted and both sticks inside the dead zone. *)
Definition at_rest (stick : Controller) : Prop :=
  requested stick = None /\ Z.abs (ly stick) <= 10 /\ Z.abs (rx stick) <= 10.

(** Every duty cycle written is 0. *)
Definition motors_off (tr : list (Z * Event)) : Prop :=
  Forall (fun e => match snd e with AnalogWrite _ d => d = 0 | _ => True end)
         tr.

(** [d] is the duty cycle of the command [x]: 255 times the clamped
    magnitude, rounded down; full scale from magnitude 1 on, and 0 below
    1/255. *)
Definition duty_of (d : Z) (x : Q) : Prop :=
  (inject_Z d <= Qabs (verify x) * 255 < inject_Z d + 1)%Q /\
  (d = 255 <-> (1 <= Qabs x)%Q) /\
  (d = 0 <-> (Qabs x < 1 # 255)%Q).

(** Pin writes of [part_000] for a wheel pair: right wheel first. *)
Definition right_forward : list Event := [DigitalWrite 32 1; DigitalWrite 33 0].
Definition right_backward : list Event := [DigitalWrite 33 1; DigitalWrite 32 0].
Definition left_forward : list Event := [DigitalWrite 19 1; DigitalWrite 21 0].
Definition left_backward : list Event := [DigitalWrite 21 1; DigitalWrite 19 0].
Definition duties (right left : Z) : list Event :=
  [AnalogWrite 25 right; AnalogWrite 18 left].

(** ** Checks of the binary32 curve and mixer over the stick range *)





(** The stop [processActionQueue] writes when the running action is a
    spin whose cooldown has passed. *)
Definition spin_end_stop (w : World Final.Action) : list Event :=
  if is_spin (currentAction w)
     && (Final.getCooldown (currentAction w) <? elapsed w)
  then right_forward ++ left_forward ++ duties 0 0
  else [].

(** The pin writes of the action [a], [t] ms after it began. *)
Definition running_command (a : Final.Action) (t : Z) : list Event :=
  match a with
  | Final.Neutral => []
  | Final.DashF => right_forward ++ left_forward ++ duties 255 255
  | Final.DashB => right_backward ++ left_backward ++ duties 255 255
  | Final.SpinR =>
      if Final.SPIN_ACTIVE <? t
      then right_forward ++ left_forward ++ duties 0 0
      else right_backward ++ left_forward ++ duties 255 255
  | Final.SpinL =>
      if Final.SPIN_ACTIVE <? t
      then right_forward ++ left_forward ++ duties 0 0
      else right_forward ++ left_backward ++ duties 255 255
  end.

(** The wheel command of an iteration whose queue step leaves the
    world [w1]: that of the running action, or that of the sticks when
    none runs. *)
Definition iteration_command (stick : Controller) (w1 : World Final.Action)
  : list Event :=
  match currentAction w1 with
  | Final.Neutral => Final32.move_events (ly stick) (rx stick)
  | a => running_command a (elapsed w1)
  end.

(** [getActionName] of [part_000], used by the serial diagnostics. *)
Module Diagnostics.
Import String.

Definition getActionName (act : Final.Action) : string :=
  match act with
  | Final.Neutral => "Neutral"%string
  | Final.DashF => "DashF"%string
  | Final.DashB => "DashB"%string
  | Final.SpinR => "SpinR"%string
  | Final.SpinL => "SpinR"%string
  end.

End Diagnostics.

(** * Proofs *)

(** ** Comparisons on rationals *)

Lemma Qltb_spec (x y : Q) : reflect (x < y)%Q (Qltb x y).
Proof.
  unfold Qltb. destruct (Qle_bool y x) eqn:E; simpl; constructor.
  - apply Qle_not_lt, Qle_bool_iff, E.
  - apply Qnot_le_lt. intro H. apply Qle_bool_iff in H. congruence.
Qed.

Ltac qcase a b :=
  let H := fresh "H" in
  destruct (Qltb_spec a b) as [H | H]; [ | apply Qnot_lt_le in H ].

Lemma absf_nonneg (x : Q) : (0 <= absf x)%Q.
Proof. unfold absf. qcase 0%Q x; lra. Qed.

Lemma absf_cases (x : Q) :
  ((0 <= x)%Q /\ absf x == x) \/ ((x <= 0)%Q /\ absf x == - x).
Proof. unfold absf. qcase 0%Q x; [left | right]; split; lra. Qed.

Lemma maxf_cases (a b : Q) :
  ((b <= a)%Q /\ maxf a b = a) \/ ((a <= b)%Q /\ maxf a b = b).
Proof. unfold maxf. qcase b a; [left | right]; split; auto; lra. Qed.

Lemma verify_range (x : Q) : (-1 <= verify x <= 1)%Q.
Proof. unfold verify. qcase x (-1)%Q; [lra|]. qcase 1%Q x; lra. Qed.

Lemma verify_inside (x : Q) : (-1 <= x <= 1)%Q -> verify x = x.
Proof.
  intros [Hlo Hhi]. unfold verify.
  qcase x (-1)%Q; [lra|]. qcase 1%Q x; [lra|]. reflexivity.
Qed.

Lemma verify_is_clamp (x : Q) : verify x == Qmax (-1) (Qmin 1 x).
Proof.
  unfold verify. qcase x (-1)%Q.
  - rewrite Q.max_l; [reflexivity|]. 
    apply Qle_trans with x; [apply Q.le_min_r | lra].
  - qcase 1%Q x.
    + rewrite Q.min_l by lra. rewrite Q.max_r by lra. reflexivity.
    + rewrite Q.min_r by lra. rewrite Q.max_r by lra. reflexivity.
Qed.

(** ** The cast to [int] of a duty cycle *)

Lemma int_of_float_floor (q : Q) : (0 <= q)%Q -> int_of_float q = Qfloor q.
Proof.
  destruct q as [n d]. unfold Qle, int_of_float, Qfloor. simpl. intros H.
  apply Z.quot_div_nonneg; lia.
Qed.

Lemma duty_range (x : Q) :
  (0 <= x <= 1)%Q -> 0 <= int_of_float (x * 255) <= 255.
Proof.
  intros [H0 H1].
  rewrite int_of_float_floor by nra.
  split.
  - change 0 with (Qfloor 0). apply Qfloor_resp_le. nra.
  - change 255 with (Qfloor (inject_Z 255)) at 2.
    apply Qfloor_resp_le. unfold inject_Z. nra.
Qed.

Lemma direction_magnitude (fwd bwd : Z) (x : Q) :
  snd (direction fwd bwd x) = Qabs x.
Proof.
  unfold direction. destruct (Qltb_spec x 0) as [H | H]; simpl.
  - destruct x as [n d]. unfold Qlt in H. simpl in H.
    unfold Qopp, Qabs. simpl. f_equal. lia.
  - apply Qnot_lt_le in H. destruct x as [n d]. unfold Qle in H. simpl in H.
    unfold Qabs. f_equal. lia.
Qed.

Lemma setSpeed_events_shape (p : Pins) (l r : Q) :
  setSpeed_events p l r =
    fst (direction (PIN_R_FWD p) (PIN_R_BWD p) (verify r)) ++
    fst (direction (PIN_L_FWD p) (PIN_L_BWD p) (verify l)) ++
    [AnalogWrite (PIN_R_SPD p) (int_of_float (Qabs (verify r) * 255));
     AnalogWrite (PIN_L_SPD p) (int_of_float (Qabs (verify l) * 255))].
Proof.
  unfold setSpeed_events.
  rewrite <- (direction_magnitude (PIN_R_FWD p) (PIN_R_BWD p) (verify r)).
  rewrite <- (direction_magnitude (PIN_L_FWD p) (PIN_L_BWD p) (verify l)).
  destruct (direction (PIN_R_FWD p) (PIN_R_BWD p) (verify r)).
  destruct (direction (PIN_L_FWD p) (PIN_L_BWD p) (verify l)).
  reflexivity.
Qed.

Lemma Qabs_verify_range (x : Q) : (0 <= Qabs (verify x) <= 1)%Q.
Proof.
  split; [apply Qabs_nonneg|].
  apply Qabs_Qle_condition. apply verify_range.
Qed.

(** ** The degenerate branch of [fmap] *)

Lemma fmap_degenerate (x in_min in_max out_min out_max : Q) :
  (absf (in_max - in_min) < EPSILON)%Q ->
  fmap x in_min in_max out_min out_max = in_max.
Proof.
  intros H. unfold fmap.
  destruct (Qltb_spec (absf (in_max - in_min)) EPSILON); [reflexivity | contradiction].
Qed.

Lemma fmap_regular (x in_min in_max out_min out_max : Q) :
  (EPSILON <= absf (in_max - in_min))%Q ->
  fmap x in_min in_max out_min out_max ==
  lerp x in_min in_max out_min out_max.
Proof.
  intros H. unfold fmap, lerp.
  destruct (Qltb_spec (absf (in_max - in_min)) EPSILON) as [H' | _].
  - exfalso. apply (Qlt_not_le _ _ H'), H.
  - ring.
Qed.

(** C3, the code at a zero-width range.  The claim has [fmap] return the
    upper output bound when [in_max - in_min] is narrower than [EPSILON].
    With input range [[10, 10]] and output range [[20, 70]] the function
    returns 10, the upper input bound, and not 70. *)
Theorem fmap_zero_width_returns_in_max :
  fmap 5 10 10 20 70 = 10%Q /\ ~ (fmap 5 10 10 20 70 == 70)%Q.
Proof. split; [reflexivity | discriminate]. Qed.

(** C5.  Whatever two values [setSpeed] receives, it rejects nothing: it
    clamps each into [[-1, 1]] (the clamp leaves a value already inside
    unchanged), writes the direction pins of the right and of the left
    wheel, and writes to each speed pin a duty cycle between 0 and 255,
    the integer part of 255 times the clamped magnitude. *)
Theorem setSpeed_clamps_then_writes (l r : Q) (w : World Final.Action) :
  exists dr dl : Z,
    Final.setSpeed l r w =
      (tt, mkWorld (currentAction w) (nextAction w) (lastActionStart w)
             (stickReconnectTimer w) (clock w)
             (trace w ++ stamp (clock w)
                (fst (direction 32 33 (verify r)) ++
                 fst (direction 19 21 (verify l)) ++
                 [AnalogWrite 25 dr; AnalogWrite 18 dl]))) /\
    dr = int_of_float (Qabs (verify r) * 255) /\
    dl = int_of_float (Qabs (verify l) * 255) /\
    0 <= dr <= 255 /\ 0 <= dl <= 255 /\
    verify l == Qmax (-1) (Qmin 1 l) /\
    verify r == Qmax (-1) (Qmin 1 r) /\
    (-1 <= verify l <= 1)%Q /\ (-1 <= verify r <= 1)%Q.
Proof.
  exists (int_of_float (Qabs (verify r) * 255)),
         (int_of_float (Qabs (verify l) * 255)).
  split.
  { unfold Final.setSpeed, emit. rewrite setSpeed_events_shape. reflexivity. }
  repeat split; try reflexivity;
    try apply duty_range; try apply Qabs_verify_range;
    try apply verify_is_clamp; try apply verify_range.
Qed.

(** ** The response curve *)

Lemma abs_int_in_range (raw : Z) :
  INT_MIN < raw <= INT_MAX -> abs_int raw = Z.abs raw.
Proof.
  intros H. unfold abs_int.
  destruct (Z.eqb_spec raw INT_MIN); [lia | reflexivity].
Qed.

Lemma inject_Z_gap (a b : Z) :
  a < b -> (EPSILON <= absf (inject_Z b - inject_Z a))%Q.
Proof.
  intros H.
  assert (Hq : (inject_Z a + 1 <= inject_Z b)%Q).
  { change 1%Q with (inject_Z 1).
    rewrite <- (inject_Z_plus a 1), <- Zle_Qle. lia. }
  unfold EPSILON.
  destruct (absf_cases (inject_Z b - inject_Z a)) as [[Hs E] | [Hs E]];
    rewrite E; lra.
Qed.

Lemma lerp_lower (x a b c d : Q) :
  (a <= x)%Q -> (a < b)%Q -> (c <= d)%Q -> (c <= lerp x a b c d)%Q.
Proof.
  intros Hx Hab Hcd. unfold lerp.
  assert (0 <= (x - a) * (d - c) / (b - a))%Q.
  { apply Qle_shift_div_l; [lra|]. nra. }
  lra.
Qed.

Lemma sign_of_stick (raw : Z) :
  raw <> 0 -> (if raw <? 0 then -1 else 1) = Z.sgn raw.
Proof. intros H. destruct (Z.ltb_spec raw 0); lia. Qed.

Lemma mapStick_shape (c : Calibration) (raw : Z) :
  well_spread c -> INT_MIN < raw <= INT_MAX ->
  mapStick c raw == shape c raw.
Proof.
  intros (Hz & Hf & Hmin & Hmax) Hraw.
  unfold mapStick, shape, shape_magnitude.
  rewrite (abs_int_in_range raw Hraw).
  destruct (Z.leb_spec (Z.abs raw) (STICK_ZERO c)) as [Hd | Hd].
  - ring.
  - rewrite sign_of_stick by lia.
    destruct (Z.leb_spec (Z.abs raw) (STICK_FINE c)) as [Hm | Hm];
      rewrite fmap_regular by (apply inject_Z_gap; lia); reflexivity.
Qed.

Lemma shape_magnitude_positive (c : Calibration) (m : Z) :
  well_spread c -> STICK_ZERO c < m -> (0 < shape_magnitude c m)%Q.
Proof.
  intros (Hz & Hf & Hmin & Hmax) Hm. unfold shape_magnitude.
  destruct (Z.leb_spec m (STICK_ZERO c)) as [Hd | Hd]; [lia|].
  assert (Hmin' : (0 < inject_Z (OUT_MIN c))%Q)
    by (change 0%Q with (inject_Z 0); rewrite <- Zlt_Qlt; lia).
  destruct (Z.leb_spec m (STICK_FINE c)) as [Hs | Hs].
  - apply Qlt_le_trans with (inject_Z (OUT_MIN c)); [exact Hmin'|].
    apply lerp_lower; rewrite <- ?Zle_Qle, <- ?Zlt_Qlt; lia.
  - apply Qlt_le_trans with (inject_Z (OUT_MID c)).
    + apply Qlt_le_trans with (inject_Z (OUT_MIN c)); [exact Hmin'|].
      rewrite <- Zle_Qle. lia.
    + apply lerp_lower; rewrite <- ?Zle_Qle, <- ?Zlt_Qlt; lia.
Qed.

Lemma shape_dead_zone (c : Calibration) (raw : Z) :
  Z.abs raw <= STICK_ZERO c -> shape c raw == 0.
Proof.
  intros H. unfold shape, shape_magnitude.
  destruct (Z.leb_spec (Z.abs raw) (STICK_ZERO c)); [ring | lia].
Qed.

Lemma shape_sign (c : Calibration) (raw : Z) :
  well_spread c ->
  ((0 < shape c raw)%Q <-> STICK_ZERO c < raw) /\
  ((shape c raw < 0)%Q <-> raw < - STICK_ZERO c).
Proof.
  intros Hc. pose proof Hc as (Hz & _).
  destruct (Z.le_gt_cases (Z.abs raw) (STICK_ZERO c)) as [Hd | Hd].
  - rewrite (shape_dead_zone c raw Hd). split; split; intros H; try lra; lia.
  - pose proof (shape_magnitude_positive c (Z.abs raw) Hc Hd) as Hpos.
    unfold shape. destruct (Z.lt_total raw 0) as [Hn | [H0 | Hp]]; [| lia |].
    + rewrite (Z.sgn_neg raw Hn). 
      change (inject_Z (-1)) with (-1 # 1)%Q.
      split; split; intros H; try lia; try nra.
    + rewrite (Z.sgn_pos raw Hp).
      change (inject_Z 1) with 1%Q.
      split; split; intros H; try lia; try nra.
Qed.

Lemma Final_speedCal_well_spread : well_spread Final.speedCal.
Proof. unfold well_spread; simpl; lia. Qed.

Lemma Final_rotCal_well_spread : well_spread Final.rotCal.
Proof. unfold well_spread; simpl; lia. Qed.

(** *** The curve in binary32 *)










(** ** The mixer *)

Lemma absf_le_self (x : Q) : (x <= absf x)%Q /\ (- x <= absf x)%Q.
Proof. destruct (absf_cases x) as [[H E] | [H E]]; rewrite E; lra. Qed.

Lemma absf_bound (x m : Q) : (x <= m)%Q -> (- x <= m)%Q -> (absf x <= m)%Q.
Proof.
  intros H1 H2. destruct (absf_cases x) as [[H E] | [H E]]; rewrite E; lra.
Qed.

Lemma maxf_upper (a b : Q) : (a <= maxf a b)%Q /\ (b <= maxf a b)%Q.
Proof. destruct (maxf_cases a b) as [[H E] | [H E]]; rewrite E; lra. Qed.

Lemma maxf_bound (a b m : Q) : (a <= m)%Q -> (b <= m)%Q -> (maxf a b <= m)%Q.
Proof.
  intros Ha Hb. destruct (maxf_cases a b) as [[H E] | [H E]]; rewrite E; lra.
Qed.

Lemma scaled_within_unit (x mx : Q) :
  (0 < mx)%Q -> (absf x <= mx)%Q -> (absf (x / mx) <= 1)%Q.
Proof.
  intros Hmx Hx. destruct (absf_le_self x) as [H1 H2].
  apply absf_bound.
  - apply Qle_shift_div_r; [exact Hmx | lra].
  - setoid_replace (- (x / mx))%Q with ((- x) / mx)%Q
      by (field; intro E; rewrite E in Hmx; lra).
    apply Qle_shift_div_r; [exact Hmx | lra].
Qed.

Lemma joint_clamp_saturated (l r : Q) :
  (1 < maxf (absf l) (absf r))%Q ->
  Final.joint_clamp l r =
    ((l / maxf (absf l) (absf r))%Q, (r / maxf (absf l) (absf r))%Q).
Proof.
  intros H. unfold Final.joint_clamp.
  destruct (Qltb_spec 1 (maxf (absf l) (absf r))); [reflexivity | contradiction].
Qed.

Lemma joint_clamp_idle (l r : Q) :
  (maxf (absf l) (absf r) <= 1)%Q -> Final.joint_clamp l r = (l, r).
Proof.
  intros H. unfold Final.joint_clamp.
  destruct (Qltb_spec 1 (maxf (absf l) (absf r))) as [H' | _]; [|reflexivity].
  exfalso. apply (Qlt_not_le _ _ H'), H.
Qed.

Lemma Final_mix_unfold (speed rot : Q) :
  Final.mix speed rot =
    Final.joint_clamp (speed + snd (Final.rotation_split rot))
                      (speed + fst (Final.rotation_split rot)).
Proof.
  unfold Final.mix. destruct (Final.rotation_split rot). reflexivity.
Qed.

(** *** The mixer in binary32 *)









(** The example of the specification, [speed = 0.8] and
    [rotation = 0.6] as the nearest floats: the sums are near 1.4 and
    0.2, the results 1 and a float within [2^-25] of 1/7. *)
Example mix_example_in_binary32 :
  let speed := Float32.div (Float32.of_int 8) (Float32.of_int 10) in
  let rot := Float32.div (Float32.of_int 6) (Float32.of_int 10) in
  let out := Final32.mix speed rot in
  Float32.to_Q (fst (Final32.sums speed rot)) == 11744052 # 2 ^ 23 /\
  Float32.to_Q (snd (Final32.sums speed rot)) == 13421772 # 2 ^ 26 /\
  Float32.to_Q (fst out) == 1 /\
  Float32.to_Q (snd out) == 9586979 # 2 ^ 26 /\
  (Qabs (Float32.to_Q (snd out) - (1 # 7)) <= 1 # 2 ^ 25)%Q.
Proof.
  intros speed rot out.
  split; [vm_compute; reflexivity|].
  split; [vm_compute; reflexivity|].
  split; [vm_compute; reflexivity|].
  split; [vm_compute; reflexivity|].
  apply Qle_bool_iff. vm_compute. reflexivity.
Qed.

(** ** The action queue *)

#[local] Arguments usub : simpl never.
#[local] Arguments to_ulong : simpl never.
#[local] Arguments setSpeed_events : simpl never.

Lemma stop_events :
  setSpeed_events Final.pins 0 0 =
    [DigitalWrite 32 1; DigitalWrite 33 0; DigitalWrite 19 1;
     DigitalWrite 21 0; AnalogWrite 25 0; AnalogWrite 18 0].
Proof. reflexivity. Qed.

Lemma checkDebounce_elapsed (deb : Z) (w : World Final.Action) :
  Final.checkDebounce deb w = (deb <? elapsed w, w).
Proof. reflexivity. Qed.

Ltac exec :=
  cbv [Final.processActionQueue Final.checkCooldown Final.checkDebounce
       Final.reset Final.setSpeed Final.executeAction
       Final.processController Final.request Final.move Final.dashF
       Final.dashB Final.spinR Final.spinL Final.removePairedDevices
       Final.setup Final.loop
       bind ret gets when millis emit delay set_currentAction
       set_nextAction set_lastActionStart set_stickReconnectTimer];
  cbn.

Ltac world w :=
  let cur := fresh "cur" in
  let nxt := fresh "nxt" in
  destruct w as [cur nxt ? ? ? ?]; destruct cur, nxt.

(** C1, as amended: "more than" in place of "at least".  When an action
    is running and more than its cooldown has elapsed since
    [lastActionStart], [processActionQueue] stops both wheels first if the
    action is a spin, makes the queued action the running one, empties the
    queue, and sets [lastActionStart] to the current time exactly when
    the new running action is not [Neutral]. *)
Theorem expired_action_gives_way (w : World Final.Action) :
  currentAction w <> Final.Neutral ->
  Final.getCooldown (currentAction w) < elapsed w ->
  let w' := snd (Final.processActionQueue w) in
  currentAction w' = nextAction w /\
  nextAction w' = Final.Neutral /\
  lastActionStart w' =
    (if Final.Action_eqb (nextAction w) Final.Neutral
     then lastActionStart w else to_ulong (clock w)) /\
  trace w' =
    trace w ++
    (if is_spin (currentAction w)
     then stamp (clock w) (setSpeed_events Final.pins 0 0) else []) /\
  clock w' = clock w /\
  stickReconnectTimer w' = stickReconnectTimer w.
Proof.
  intros Hrun Hexp. unfold elapsed in Hexp.
  world w; cbn in Hrun, Hexp; try congruence;
    apply Z.ltb_lt in Hexp;
    exec; rewrite Hexp; cbn; rewrite ?app_nil_r; repeat split; reflexivity.
Qed.

Lemma waiting_action_stays (w : World Final.Action) :
  currentAction w <> Final.Neutral ->
  elapsed w <= Final.getCooldown (currentAction w) ->
  snd (Final.processActionQueue w) = w.
Proof.
  intros Hrun Hwait. unfold elapsed in Hwait.
  world w; cbn in Hrun, Hwait; try congruence;
    apply Z.ltb_ge in Hwait; exec; rewrite Hwait; reflexivity.
Qed.

(** C1, counterexample.  A forward dash began at 0 and a right spin is
    queued; at time 300 the elapsed time equals the cooldown, which is "at
    least" the cooldown, and the dash is still the running action. *)
Lemma cooldown_boundary_not_promoted :
  let w := mkWorld Final.DashF Final.SpinR 0 0 300 [] in
  currentAction w <> Final.Neutral /\
  Final.getCooldown (currentAction w) <= elapsed w /\
  currentAction (snd (Final.processActionQueue w)) <> nextAction w.
Proof.
  cbv zeta. split; [discriminate|]. split; [vm_compute; discriminate|].
  vm_compute. discriminate.
Qed.

Lemma expired_action_gives_way_witness :
  let w := mkWorld Final.SpinR Final.DashF 0 0 301 [] in
  currentAction w <> Final.Neutral /\
  Final.getCooldown (currentAction w) < elapsed w /\
  currentAction (snd (Final.processActionQueue w)) = nextAction w /\
  nextAction (snd (Final.processActionQueue w)) = Final.Neutral /\
  lastActionStart (snd (Final.processActionQueue w)) = 301 /\
  trace (snd (Final.processActionQueue w)) =
    stamp 301 (setSpeed_events Final.pins 0 0).
Proof.
  intro w.
  assert (Hrun : currentAction w <> Final.Neutral) by discriminate.
  assert (Hexp : Final.getCooldown (currentAction w) < elapsed w)
    by (vm_compute; reflexivity).
  destruct (expired_action_gives_way w Hrun Hexp) as (Hc & Hn & Hl & Ht & _).
  split; [exact Hrun|]. split; [exact Hexp|].
  split; [exact Hc|]. split; [exact Hn|]. split; [exact Hl | exact Ht].
Defined.

(** ** Queue admission *)

Lemma move_keeps_globals (a b : Z) (w : World Final.Action) :
  exists evs,
    Final.move a b w =
      (tt, mkWorld (currentAction w) (nextAction w) (lastActionStart w)
             (stickReconnectTimer w) (clock w) (trace w ++ stamp (clock w) evs)).
Proof.
  unfold Final.move. destruct (Final.mix _ _) as [l r].
  eexists. reflexivity.
Qed.

Lemma request_admits (a : Final.Action) (w : World Final.Action) :
  Final.request a w =
    (tt, mkWorld (currentAction w)
           (if admitted a w then a else nextAction w)
           (lastActionStart w) (stickReconnectTimer w) (clock w) (trace w)).
Proof.
  unfold admitted, elapsed.
  destruct w as [cur nxt last timer clk tr]; destruct cur, a; exec;
    try reflexivity;
    destruct (Final.ACTION_DEBOUNCE <? usub (to_ulong clk) last); reflexivity.
Qed.

Lemma requested_cases (stick : Controller) :
  requested stick =
    if btn_x stick then Some Final.DashF
    else if btn_sq stick then Some Final.DashB
    else if btn_r1 stick then Some Final.SpinR
    else if btn_l1 stick then Some Final.SpinL
    else None.
Proof.
  unfold requested, priority. simpl.
  destruct (btn_x stick), (btn_sq stick), (btn_r1 stick), (btn_l1 stick);
    reflexivity.
Qed.

(** C2.  When the status passed in is not 2 and at least one action
    button is asserted, only the action [a] of the highest-priority
    asserted button (dash forward, dash backward, spin right, spin left,
    in this order) is looked at: [nextAction] becomes [a] if [a] differs
    from the running action or more than 200 ms have elapsed since
    [lastActionStart], and keeps its value otherwise.  The running action
    and [lastActionStart] are left alone. *)
Theorem highest_priority_button_is_admitted
    (stick : Controller) (status : Z) (a : Final.Action)
    (w : World Final.Action) :
  status <> 2 ->
  requested stick = Some a ->
  let w' := snd (Final.processController stick status w) in
  nextAction w' = (if admitted a w then a else nextAction w) /\
  currentAction w' = currentAction w /\
  lastActionStart w' = lastActionStart w.
Proof.
  intros Hst Hreq. rewrite requested_cases in Hreq.
  unfold Final.processController.
  apply Z.eqb_neq in Hst. rewrite Hst. cbn [negb when].
  assert (Hfirst :
    (if btn_x stick then Final.request Final.DashF
     else if btn_sq stick then Final.request Final.DashB
     else if btn_r1 stick then Final.request Final.SpinR
     else if btn_l1 stick then Final.request Final.SpinL
     else ret tt) = Final.request a).
  { destruct (btn_x stick), (btn_sq stick), (btn_r1 stick), (btn_l1 stick);
      inversion Hreq; reflexivity. }
  rewrite Hfirst. unfold bind. rewrite request_admits.
  destruct (status =? 0); cbn [when].
  - match goal with |- context [Final.move ?x ?y ?v] =>
      destruct (move_keeps_globals x y v) as [evs E]; rewrite E end.
    cbn. repeat split; reflexivity.
  - cbn. repeat split; reflexivity.
Qed.

Lemma highest_priority_button_is_admitted_witness :
  let stick := mkController 0 0 true false true true in
  let w := mkWorld Final.DashF Final.Neutral 0 0 201 [] in
  1 <> 2 /\
  requested stick = Some Final.DashF /\
  nextAction (snd (Final.processController stick 1 w)) = Final.DashF /\
  currentAction (snd (Final.processController stick 1 w)) = Final.DashF /\
  lastActionStart (snd (Final.processController stick 1 w)) = 0.
Proof.
  intros stick w.
  assert (Hst : 1 <> 2) by lia.
  assert (Hreq : requested stick = Some Final.DashF) by reflexivity.
  split; [exact Hst|]. split; [exact Hreq|].
  exact (highest_priority_button_is_admitted stick 1 Final.DashF w Hst Hreq).
Defined.

(** ** Status of the queue *)

Lemma status_is_status_of (w : World Final.Action) :
  fst (Final.processActionQueue w) = status_of (snd (Final.processActionQueue w)) /\
  (currentAction (snd (Final.processActionQueue w)) = Final.Neutral ->
   nextAction (snd (Final.processActionQueue w)) = Final.Neutral).
Proof.
  destruct w as [cur nxt last timer clk tr].
  destruct cur, nxt; exec;
    try (split; [reflexivity | intros; first [reflexivity | discriminate]]);
    match goal with |- context [?c <? ?e] => destruct (c <? e) end;
    cbn; split; first [reflexivity | intros; first [reflexivity | discriminate]].
Qed.

Lemma full_queue_refuses (stick : Controller) (w : World Final.Action) :
  Final.processController stick 2 w = (tt, w).
Proof. destruct w. reflexivity. Qed.


(** C10.  After [processActionQueue], an idle scheduler has an empty
    queue: an action queued while idle is promoted in that same call.
    The returned status is therefore 0 when idle, 1 when an action runs
    with nothing queued and 2 when one runs with one queued; it is never 1
    on account of an action queued behind an idle scheduler. *)
Theorem idle_scheduler_has_empty_queue (w : World Final.Action) :
  let status := fst (Final.processActionQueue w) in
  let w' := snd (Final.processActionQueue w) in
  (currentAction w' = Final.Neutral -> nextAction w' = Final.Neutral) /\
  (currentAction w = Final.Neutral -> currentAction w' = nextAction w) /\
  status =
    (if Final.Action_eqb (currentAction w') Final.Neutral then 0
     else if Final.Action_eqb (nextAction w') Final.Neutral then 1
     else 2) /\
  (status = 1 -> currentAction w' <> Final.Neutral).
Proof.
  intros status w'.
  destruct (status_is_status_of w) as [Hst Hinv].
  split; [exact Hinv|].
  split.
  { subst w'. destruct w as [cur nxt last timer clk tr].
    cbn [currentAction nextAction]. intros ->. destruct nxt; reflexivity. }
  assert (Hcode : status =
    (if Final.Action_eqb (currentAction w') Final.Neutral then 0
     else if Final.Action_eqb (nextAction w') Final.Neutral then 1
     else 2)).
  { fold status in Hst. fold w' in Hst, Hinv. rewrite Hst.
    unfold status_of.
    destruct (currentAction w'), (nextAction w'); reflexivity. }
  split; [exact Hcode|].
  intros H1 Hidle. rewrite Hcode, Hidle in H1. discriminate.
Qed.

(** ** Spins *)

Lemma Final_spin_two_phases (a : Final.Action) (w : World Final.Action) :
  is_spin a = true ->
  currentAction w = a ->
  Final.executeAction w =
    (tt, mkWorld (currentAction w) (nextAction w) (lastActionStart w)
           (stickReconnectTimer w) (clock w)
           (trace w ++ stamp (clock w)
              (setSpeed_events Final.pins (fst (spin_command a (elapsed w)))
                                          (snd (spin_command a (elapsed w)))))).
Proof.
  intros Hspin Hcur. unfold spin_command, elapsed.
  destruct w as [cur nxt last timer clk tr]. cbn in Hcur. subst cur.
  rewrite Z.leb_antisym.
  destruct a; try discriminate; exec;
    destruct (Final.SPIN_ACTIVE <? usub (to_ulong clk) last); reflexivity.
Qed.

Lemma Final_spin_active_opposite (t : Z) :
  t <= Final.SPIN_ACTIVE ->
  (0 < fst (spin_command Final.SpinR t))%Q /\
  (snd (spin_command Final.SpinR t) < 0)%Q /\
  (fst (spin_command Final.SpinL t) < 0)%Q /\
  (0 < snd (spin_command Final.SpinL t))%Q.
Proof.
  intros H. unfold spin_command. apply Z.leb_le in H. rewrite H.
  repeat split; reflexivity.
Qed.

Ltac exec2 :=
  cbv [Sumo2.processActionQueue Sumo2.checkCooldown Sumo2.checkDebounce
       Sumo2.reset Sumo2.setSpeed Sumo2.executeAction
       Sumo2.processController Sumo2.request Sumo2.move Sumo2.dash
       Sumo2.spinR Sumo2.spinL Sumo2.removePairedDevices
       Sumo2.setup Sumo2.loop
       bind ret gets when millis emit delay set_currentAction
       set_nextAction set_lastActionStart set_stickReconnectTimer];
  cbn.

Lemma Sumo2_spinR_phases (w : World Sumo2.Action) :
  currentAction w = Sumo2.SpinR ->
  trace (snd (Sumo2.executeAction w)) =
    trace w ++ stamp (clock w)
      (if 100 <? elapsed w
       then setSpeed_events Sumo2.pins 1 (-1)
       else setSpeed_events Sumo2.pins 0 0).
Proof.
  intros Hcur. unfold elapsed.
  destruct w as [cur nxt last timer clk tr]. cbn in Hcur. subst cur.
  exec2. destruct (100 <? usub (to_ulong clk) last); reflexivity.
Qed.

(** C4, the second sketch of [sumo.ino] in a right spin.  The claim has
    the wheels driven in opposite directions during the first 100 ms and
    stopped afterwards.  Here, 50 ms into the spin both duty cycles are 0,
    and 150 ms into it the right wheel runs backward and the left wheel
    forward at full duty: the phases are the other way round. *)
Theorem Sumo2_spin_coasts_before_it_turns :
  let early := mkWorld Sumo2.SpinR Sumo2.Neutral 0 0 50 [] in
  let late := mkWorld Sumo2.SpinR Sumo2.Neutral 0 0 150 [] in
  elapsed early = 50 /\
  trace (snd (Sumo2.executeAction early)) =
    stamp 50 [DigitalWrite 32 1; DigitalWrite 33 0; DigitalWrite 0 1;
              DigitalWrite 0 0; AnalogWrite 25 0; AnalogWrite 0 0] /\
  elapsed late = 150 /\
  trace (snd (Sumo2.executeAction late)) =
    stamp 150 [DigitalWrite 33 1; DigitalWrite 32 0; DigitalWrite 0 1;
               DigitalWrite 0 0; AnalogWrite 25 255; AnalogWrite 0 255].
Proof. repeat split; vm_compute; reflexivity. Qed.

(** The same two instants in the sketch of [part_000]. *)
Example Final_spin_turns_then_coasts :
  let early := mkWorld Final.SpinR Final.Neutral 0 0 50 [] in
  let late := mkWorld Final.SpinR Final.Neutral 0 0 150 [] in
  trace (snd (Final.executeAction early)) =
    stamp 50 [DigitalWrite 33 1; DigitalWrite 32 0; DigitalWrite 19 1;
              DigitalWrite 21 0; AnalogWrite 25 255; AnalogWrite 18 255] /\
  trace (snd (Final.executeAction late)) =
    stamp 150 [DigitalWrite 32 1; DigitalWrite 33 0; DigitalWrite 19 1;
               DigitalWrite 21 0; AnalogWrite 25 0; AnalogWrite 18 0].
Proof. split; vm_compute; reflexivity. Qed.

(** ** Reconnect attempts *)

Lemma attempt_times_app (tr tr' : list (Z * Event)) :
  attempt_times (tr ++ tr') = attempt_times tr ++ attempt_times tr'.
Proof. unfold attempt_times. rewrite filter_app, map_app. reflexivity. Qed.

Lemma attempt_times_other (t : Z) (evs : list Event) :
  Forall (fun e => e <> RemovePairedDevices) evs ->
  attempt_times (stamp t evs) = [].
Proof.
  induction 1 as [| e evs He _ IH]; [reflexivity|].
  unfold attempt_times, stamp in *. simpl. unfold is_attempt at 1. simpl.
  destruct e; try exact IH. congruence.
Qed.

Section Quiet.
Context {Act : Type}.

Lemma quiet_ret {A} (a : A) : quiet (ret a : M Act A).
Proof. intros w. repeat split. apply Z.le_refl. Qed.

Lemma quiet_gets {A} (f : World Act -> A) : quiet (gets f).
Proof. intros w. repeat split. apply Z.le_refl. Qed.

Lemma quiet_millis : quiet (@millis Act).
Proof. apply quiet_gets. Qed.

Lemma quiet_delay (ms : Z) : 0 <= ms -> quiet (@delay Act ms).
Proof. intros H w. repeat split. simpl. lia. Qed.

Lemma quiet_bind {A B} (m : M Act A) (k : A -> M Act B) :
  quiet m -> (forall a, quiet (k a)) -> quiet (bind m k).
Proof.
  intros Hm Hk w. unfold bind.
  specialize (Hm w). destruct (m w) as [a w1]. simpl in Hm.
  destruct Hm as (H1 & H2 & H3).
  destruct (Hk a w1) as (K1 & K2 & K3).
  repeat split; try congruence. lia.
Qed.

Lemma quiet_set_currentAction (a : Act) : quiet (set_currentAction a).
Proof. intros w. repeat split. apply Z.le_refl. Qed.

Lemma quiet_set_nextAction (a : Act) : quiet (set_nextAction a).
Proof. intros w. repeat split. apply Z.le_refl. Qed.

Lemma quiet_set_lastActionStart (t : Z) :
  quiet (set_lastActionStart t : M Act unit).
Proof. intros w. repeat split. apply Z.le_refl. Qed.

Lemma quiet_when (b : bool) (m : M Act unit) : quiet m -> quiet (when b m).
Proof. intros H. destruct b; [exact H | apply quiet_ret]. Qed.

Lemma quiet_emit (evs : list Event) :
  Forall (fun e => e <> RemovePairedDevices) evs ->
  quiet (emit evs : M Act unit).
Proof.
  intros H w. unfold emit, attempts. simpl.
  repeat split; [apply Z.le_refl|].
  rewrite attempt_times_app.
  rewrite (attempt_times_other (clock w) evs H). apply app_nil_r.
Qed.
End Quiet.

Create HintDb quiet.
#[local] Hint Resolve quiet_ret quiet_gets quiet_millis quiet_set_currentAction
  quiet_set_nextAction quiet_set_lastActionStart quiet_when : quiet.

Lemma setSpeed_events_pins_only (p : Pins) (l r : Q) :
  Forall (fun e => e <> RemovePairedDevices) (setSpeed_events p l r).
Proof.
  unfold setSpeed_events, direction.
  destruct (Qltb (verify r) 0), (Qltb (verify l) 0);
    repeat constructor; discriminate.
Qed.

Ltac quiet_step :=
  first
    [ apply quiet_bind; [| intros ?]
    | apply quiet_when
    | match goal with
      | |- quiet (if ?b then _ else _) => destruct b
      | |- quiet (let '(_, _) := ?p in _) => destruct p
      end
    | apply quiet_emit; apply setSpeed_events_pins_only
    | solve [auto with quiet] ].

Lemma quiet_Final_setSpeed (l r : Q) : quiet (Final.setSpeed l r).
Proof. unfold Final.setSpeed. quiet_step. Qed.

#[local] Hint Resolve quiet_Final_setSpeed : quiet.

Lemma quiet_Final_checkDebounce (deb : Z) : quiet (Final.checkDebounce deb).
Proof. unfold Final.checkDebounce. repeat quiet_step. Qed.

#[local] Hint Resolve quiet_Final_checkDebounce : quiet.

Lemma quiet_Final_processActionQueue : quiet Final.processActionQueue.
Proof.
  unfold Final.processActionQueue, Final.checkCooldown, Final.reset.
  repeat quiet_step.
Qed.

Lemma quiet_Final_executeAction : quiet Final.executeAction.
Proof.
  unfold Final.executeAction, Final.dashF, Final.dashB, Final.spinR,
    Final.spinL.
  repeat quiet_step.
Qed.

Lemma quiet_Final_processController (stick : Controller) (status : Z) :
  quiet (Final.processController stick status).
Proof.
  unfold Final.processController, Final.request, Final.move.
  repeat quiet_step.
Qed.

Lemma quiet_Final_connected_loop (stick : Controller) :
  quiet (Final.loop true stick).
Proof.
  unfold Final.loop.
  apply quiet_bind; [apply quiet_Final_processActionQueue | intros status].
  apply quiet_bind; [apply quiet_Final_executeAction | intros _].
  apply quiet_bind; [apply quiet_Final_processController | intros _].
  apply quiet_delay. lia.
Qed.

Lemma usub_underestimates (now mark : Z) :
  mark <= now -> usub (to_ulong now) (to_ulong mark) <= now - mark.
Proof.
  intros H. unfold usub, to_ulong.
  rewrite Zminus_mod_idemp_l, Zminus_mod_idemp_r.
  apply Z.mod_le; [lia | reflexivity].
Qed.

Lemma rate_limited_snoc (gap : Z) (ts : list Z) (t : Z) :
  rate_limited gap ts ->
  Forall (fun t0 => apart gap t0 t) ts ->
  rate_limited gap (ts ++ [t]).
Proof.
  unfold rate_limited. induction 1 as [| t0 ts Hs IH Hall]; intros Hnew.
  - simpl. repeat constructor.
  - simpl. inversion Hnew as [| ? ? Ht0 Hrest]; subst.
    constructor; [apply IH; exact Hrest|].
    apply Forall_app. split; [exact Hall | constructor; [exact Ht0 | constructor]].
Qed.

Lemma quiet_keeps_reconnect_inv {A} (m : M Final.Action A)
    (w : World Final.Action) :
  quiet m -> reconnect_inv w -> reconnect_inv (snd (m w)).
Proof.
  intros Hq (T & Ht & Hle & Hall & Hrl).
  destruct (Hq w) as (Q1 & Q2 & Q3).
  exists T. rewrite Q1, Q3. repeat split; try assumption. lia.
Qed.

Lemma disconnected_loop_keeps_reconnect_inv (stick : Controller)
    (w : World Final.Action) :
  reconnect_inv w -> reconnect_inv (snd (Final.loop false stick w)).
Proof.
  intros (T & Ht & Hle & Hall & Hrl).
  destruct w as [cur nxt last timer clk tr].
  unfold attempts in *. cbn [trace clock stickReconnectTimer] in *.
  subst timer.
  cbv [Final.loop Final.reset Final.setSpeed Final.removePairedDevices
       bind ret gets millis emit set_stickReconnectTimer
       trace clock stickReconnectTimer currentAction nextAction
       lastActionStart fst snd].
  destruct (Z.ltb_spec Final.STICK_RECONNECT_DELAY
              (usub (to_ulong clk) (to_ulong T))) as [Hgo | Hwait].
  - exists clk. unfold attempts. cbn [trace clock stickReconnectTimer snd].
    pose proof (usub_underestimates clk T Hle) as Hgap.
    rewrite !attempt_times_app.
    rewrite (attempt_times_other clk _ (setSpeed_events_pins_only _ _ _)).
    change (attempt_times (stamp clk [RemovePairedDevices])) with [clk].
    change (attempt_times (stamp clk [PS4End])) with (@nil Z).
    change (attempt_times (stamp clk [PS4Begin])) with (@nil Z).
    rewrite !app_nil_r.
    repeat split; [lia | |].
    + apply Forall_app. split; [| constructor; [lia | constructor]].
      eapply Forall_impl; [| exact Hall]. simpl. intros; lia.
    + apply rate_limited_snoc; [exact Hrl|].
      eapply Forall_impl; [| exact Hall]. unfold apart. simpl. intros; lia.
  - exists T. unfold attempts. cbn [trace clock stickReconnectTimer snd].
    rewrite attempt_times_app.
    rewrite (attempt_times_other clk _ (setSpeed_events_pins_only _ _ _)).
    rewrite app_nil_r. repeat split; assumption.
Qed.

Lemma loop_keeps_reconnect_inv (isConnected : bool) (stick : Controller)
    (w : World Final.Action) :
  reconnect_inv w -> reconnect_inv (snd (Final.loop isConnected stick w)).
Proof.
  destruct isConnected.
  - apply quiet_keeps_reconnect_inv, quiet_Final_connected_loop.
  - apply disconnected_loop_keeps_reconnect_inv.
Qed.

Lemma run_keeps_reconnect_inv (ticks : list Tick) (w : World Final.Action) :
  Forall (fun tk => 0 <= idle tk) ticks ->
  reconnect_inv w -> reconnect_inv (snd (Final.run ticks w)).
Proof.
  intros Hticks. revert w.
  induction Hticks as [| tk rest Hidle _ IH]; intros w Hinv; [exact Hinv|].
  cbn [Final.run]. unfold bind at 1.
  pose proof (quiet_keeps_reconnect_inv (delay (idle tk)) w
                (quiet_delay (idle tk) Hidle) Hinv) as H1.
  destruct (delay (idle tk) w) as [[] w1]. cbn [snd] in H1.
  unfold bind.
  pose proof (loop_keeps_reconnect_inv (connected tk) (pad tk) w1 H1) as H2.
  destruct (Final.loop (connected tk) (pad tk) w1) as [[] w2]. cbn [snd] in H2.
  apply IH, H2.
Qed.

Lemma setup_establishes_reconnect_inv (boot : Z) :
  0 <= boot -> reconnect_inv (snd (Final.setup (Final.power_on boot))).
Proof.
  intros Hboot. exists 0. repeat split; try assumption.
  - unfold attempts. simpl. constructor.
  - unfold attempts. simpl. constructor.
Qed.

(** X17.  In the sketch of [part_000], any two reconnect attempts of a run are
    more than 3000 ms apart. *)
Theorem Final_reconnect_is_rate_limited (boot : Z) (ticks : list Tick) :
  0 <= boot ->
  Forall (fun tk => 0 <= idle tk) ticks ->
  rate_limited 3000
    (attempts (snd (Final.run ticks (snd (Final.setup (Final.power_on boot)))))).
Proof.
  intros Hboot Hticks.
  destruct (run_keeps_reconnect_inv ticks _ Hticks
              (setup_establishes_reconnect_inv boot Hboot))
    as (T & _ & _ & _ & H).
  exact H.
Qed.

(** Every iteration without a link begins by stopping both wheels. *)
Lemma Final_disconnected_loop_stops (stick : Controller)
    (w : World Final.Action) :
  exists rest,
    trace (snd (Final.loop false stick w)) =
      trace w ++ stamp (clock w) (setSpeed_events Final.pins 0 0) ++ rest.
Proof.
  destruct w as [cur nxt last timer clk tr].
  cbv [Final.loop Final.reset Final.setSpeed Final.removePairedDevices
       bind ret gets millis emit set_stickReconnectTimer
       trace clock stickReconnectTimer currentAction nextAction
       lastActionStart fst snd].
  destruct (Final.STICK_RECONNECT_DELAY <? usub (to_ulong clk) timer).
  - eexists. cbn [trace snd]. rewrite <- !app_assoc. reflexivity.
  - exists []. cbn [trace snd]. rewrite app_nil_r. reflexivity.
Qed.

(** ** Reconnect attempts in the second sketch of [sumo.ino] *)

Lemma Sumo2_disconnected_loop_attempts (stick : Controller)
    (w : World Sumo2.Action) :
  Sumo2.STICK_RECONNECT_DELAY <
    usub (to_ulong (clock w)) (stickReconnectTimer w) ->
  attempts (snd (Sumo2.loop false stick w)) = attempts w ++ [clock w] /\
  stickReconnectTimer (snd (Sumo2.loop false stick w)) =
    stickReconnectTimer w.
Proof.
  intros Hgo. destruct w as [cur nxt last timer clk tr].
  cbn [clock stickReconnectTimer] in Hgo. apply Z.ltb_lt in Hgo.
  cbv [Sumo2.loop Sumo2.reset Sumo2.setSpeed Sumo2.removePairedDevices
       bind ret gets millis emit
       trace clock stickReconnectTimer currentAction nextAction
       lastActionStart fst snd].
  rewrite Hgo. unfold attempts. cbn [trace stickReconnectTimer snd].
  rewrite !attempt_times_app.
  rewrite (attempt_times_other clk _ (setSpeed_events_pins_only _ _ _)).
  rewrite app_nil_r. split; reflexivity.
Qed.

(** C9, the second sketch of [sumo.ino] without a link.  The claim has
    at most one reconnect attempt per window of 3000 ms.  Here the link is
    down from power-up; iterations of [loop] at 4000, 4010 and 4020 ms
    each stop the wheels and each call [removePairedDevices], 10 ms
    apart, and [stickReconnectTimer] is still 0 afterwards. *)
Theorem Sumo2_reconnects_on_every_iteration :
  let stick := mkController 0 0 false false false false in
  let ticks := [mkTick 4000 false stick; mkTick 10 false stick;
                mkTick 10 false stick] in
  let w := snd (Sumo2.run ticks (snd (Sumo2.setup (Sumo2.power_on 0)))) in
  attempts w = [4000; 4010; 4020] /\
  stickReconnectTimer w = 0 /\
  ~ rate_limited 3000 (attempts w).
Proof.
  cbv zeta. split; [vm_compute; reflexivity|].
  split; [vm_compute; reflexivity|].
  intros H.
  assert (E : attempts
            (snd (Sumo2.run
               [mkTick 4000 false (mkController 0 0 false false false false);
                mkTick 10 false (mkController 0 0 false false false false);
                mkTick 10 false (mkController 0 0 false false false false)]
               (snd (Sumo2.setup (Sumo2.power_on 0))))) = [4000; 4010; 4020])
    by (vm_compute; reflexivity).
  rewrite E in H. inversion H as [| ? ? _ Hall]; subst.
  inversion Hall as [| ? ? Hgap _]; subst.
  unfold apart in Hgap. lia.
Qed.

(** The same run in the sketch of [part_000]: one attempt. *)
Example Final_reconnects_once :
  let stick := mkController 0 0 false false false false in
  let ticks := [mkTick 4000 false stick; mkTick 10 false stick;
                mkTick 10 false stick] in
  let w := snd (Final.run ticks (snd (Final.setup (Final.power_on 0)))) in
  attempts w = [4000] /\ stickReconnectTimer w = 4000.
Proof. split; vm_compute; reflexivity. Qed.

(** * Further properties of the sketches *)

(** ** The curve as a whole *)

Lemma shape_odd (c : Calibration) (raw : Z) : shape c (- raw) == - shape c raw.
Proof.
  unfold shape. rewrite Z.sgn_opp, Z.abs_opp, inject_Z_opp. ring.
Qed.

Lemma lerp_monotone (x y a b c d : Q) :
  (a < b)%Q -> (c <= d)%Q -> (x <= y)%Q ->
  (lerp x a b c d <= lerp y a b c d)%Q.
Proof.
  intros Hab Hcd Hxy. unfold lerp.
  assert (H : ((x - a) * (d - c) / (b - a) <= (y - a) * (d - c) / (b - a))%Q).
  { apply Qle_shift_div_l; [lra|].
    setoid_replace ((x - a) * (d - c) / (b - a) * (b - a))%Q
      with ((x - a) * (d - c))%Q by (field; lra).
    nra. }
  lra.
Qed.

Lemma lerp_at_upper (a b c d : Q) : (a < b)%Q -> lerp b a b c d == d.
Proof. intros H. unfold lerp. field. lra. Qed.

Lemma lerp_at_lower (a b c d : Q) : (a < b)%Q -> lerp a a b c d == c.
Proof. intros H. unfold lerp. field. lra. Qed.

Lemma lerp_upper (x a b c d : Q) :
  (a < b)%Q -> (c <= d)%Q -> (x <= b)%Q -> (lerp x a b c d <= d)%Q.
Proof.
  intros Hab Hcd Hx.
  rewrite <- (lerp_at_upper a b c d Hab) at 2.
  apply lerp_monotone; assumption.
Qed.

Lemma inject_Z_lt (a b : Z) : a < b -> (inject_Z a < inject_Z b)%Q.
Proof. intros H. rewrite <- Zlt_Qlt. exact H. Qed.

Lemma inject_Z_le (a b : Z) : a <= b -> (inject_Z a <= inject_Z b)%Q.
Proof. intros H. rewrite <- Zle_Qle. exact H. Qed.

Lemma shape_magnitude_monotone (c : Calibration) (m n : Z) :
  well_spread c -> m <= n ->
  (shape_magnitude c m <= shape_magnitude c n)%Q.
Proof.
  intros Hc Hmn. pose proof Hc as (Hz & Hf & Hmin & Hmax).
  unfold shape_magnitude.
  destruct (Z.leb_spec m (STICK_ZERO c)) as [Hm0 | Hm0].
  - destruct (Z.leb_spec n (STICK_ZERO c)) as [Hn0 | Hn0]; [lra|].
    apply Qlt_le_weak.
    pose proof (shape_magnitude_positive c n Hc Hn0) as Hpos.
    unfold shape_magnitude in Hpos.
    destruct (Z.leb_spec n (STICK_ZERO c)); [lia | exact Hpos].
  - destruct (Z.leb_spec n (STICK_ZERO c)) as [Hn0 | Hn0]; [lia|].
    destruct (Z.leb_spec m (STICK_FINE c)) as [Hm1 | Hm1];
      destruct (Z.leb_spec n (STICK_FINE c)) as [Hn1 | Hn1]; try lia.
    + apply lerp_monotone;
        [apply inject_Z_lt | apply inject_Z_le | apply inject_Z_le]; lia.
    + apply Qle_trans with (inject_Z (OUT_MID c)).
      * apply lerp_upper;
          [apply inject_Z_lt | apply inject_Z_le | apply inject_Z_le]; lia.
      * apply lerp_lower;
          [apply inject_Z_le | apply inject_Z_lt | apply inject_Z_le]; lia.
    + apply lerp_monotone;
        [apply inject_Z_lt | apply inject_Z_le | apply inject_Z_le]; lia.
Qed.

Lemma shape_monotone (c : Calibration) (a b : Z) :
  well_spread c -> a <= b -> (shape c a <= shape c b)%Q.
Proof.
  intros Hc Hab.
  assert (Hnn : forall m, (0 <= shape_magnitude c m)%Q).
  { intros m. destruct (Z.le_gt_cases m (STICK_ZERO c)) as [H | H].
    - unfold shape_magnitude.
      destruct (Z.leb_spec m (STICK_ZERO c)); [lra | lia].
    - apply Qlt_le_weak, shape_magnitude_positive; assumption. }
  unfold shape.
  destruct (Z.lt_total a 0) as [Ha | [Ha | Ha]];
    destruct (Z.lt_total b 0) as [Hb | [Hb | Hb]]; try lia; subst;
    rewrite ?(Z.sgn_neg a), ?(Z.sgn_neg b), ?(Z.sgn_pos a), ?(Z.sgn_pos b)
      by assumption;
    cbn [Z.sgn];
    change (inject_Z (-1)) with (-1 # 1)%Q;
    change (inject_Z 1) with 1%Q;
    change (inject_Z 0) with 0%Q.
  - assert (H := shape_magnitude_monotone c (Z.abs b) (Z.abs a) Hc ltac:(lia)).
    lra.
  - pose proof (Hnn (Z.abs a)). lra.
  - pose proof (Hnn (Z.abs a)). pose proof (Hnn (Z.abs b)). lra.
  - lra.
  - pose proof (Hnn (Z.abs b)). lra.
  - assert (H := shape_magnitude_monotone c (Z.abs a) (Z.abs b) Hc ltac:(lia)).
    lra.
Qed.

Lemma int_range_opp (raw : Z) :
  INT_MIN < raw <= INT_MAX -> INT_MIN < - raw <= INT_MAX.
Proof. unfold INT_MIN, INT_MAX. lia. Qed.

Lemma shape_at_max (c : Calibration) :
  well_spread c -> shape c (STICK_MAX c) == inject_Z (OUT_MAX c).
Proof.
  intros (Hz & Hf & Hmin & Hmax). unfold shape, shape_magnitude.
  rewrite Z.sgn_pos, Z.abs_eq by lia.
  destruct (Z.leb_spec (STICK_MAX c) (STICK_ZERO c)); [lia|].
  destruct (Z.leb_spec (STICK_MAX c) (STICK_FINE c)); [lia|].
  rewrite lerp_at_upper by (apply inject_Z_lt; lia).
  change (inject_Z 1) with 1%Q. ring.
Qed.

Lemma shape_beyond_max (c : Calibration) (raw : Z) :
  well_spread c -> OUT_MID c < OUT_MAX c -> STICK_MAX c < raw ->
  (inject_Z (OUT_MAX c) < shape c raw)%Q.
Proof.
  intros (Hz & Hf & Hmin & Hmax) Hrise Hraw. unfold shape, shape_magnitude.
  rewrite Z.sgn_pos, Z.abs_eq by lia.
  destruct (Z.leb_spec raw (STICK_ZERO c)); [lia|].
  destruct (Z.leb_spec raw (STICK_FINE c)); [lia|].
  change (inject_Z 1) with 1%Q. unfold lerp.
  pose proof (inject_Z_lt _ _ Hf) as Hf'.
  pose proof (inject_Z_lt _ _ Hrise) as Hrise'.
  pose proof (inject_Z_lt _ _ Hraw) as Hraw'.
  set (x := inject_Z raw) in *. set (a := inject_Z (STICK_FINE c)) in *.
  set (b := inject_Z (STICK_MAX c)) in *. set (m := inject_Z (OUT_MID c)) in *.
  set (M := inject_Z (OUT_MAX c)) in *.
  assert (Hgt : (M - m < (x - a) * (M - m) / (b - a))%Q).
  { apply Qlt_shift_div_l; [lra | nra]. }
  lra.
Qed.

Lemma shape_within_max (c : Calibration) (raw : Z) :
  well_spread c -> - STICK_MAX c <= raw <= STICK_MAX c ->
  (- inject_Z (OUT_MAX c) <= shape c raw <= inject_Z (OUT_MAX c))%Q.
Proof.
  intros Hc [Hlo Hhi]. split.
  - rewrite <- (shape_at_max c Hc), <- shape_odd.
    apply shape_monotone; assumption.
  - rewrite <- (shape_at_max c Hc). apply shape_monotone; assumption.
Qed.

(** X1.  The response curve is odd. *)
Theorem stick_curve_is_odd (raw : Z) :
  INT_MIN < raw <= INT_MAX ->
  Final.mapSpeedStick (- raw) == - Final.mapSpeedStick raw /\
  Final.mapRotStick (- raw) == - Final.mapRotStick raw.
Proof.
  intros Hraw. pose proof (int_range_opp raw Hraw) as Hopp.
  unfold Final.mapSpeedStick, Final.mapRotStick.
  rewrite !(mapStick_shape _ (- raw)), !(mapStick_shape _ raw)
    by (assumption || apply Final_speedCal_well_spread
        || apply Final_rotCal_well_spread).
  split; apply shape_odd.
Qed.

Lemma stick_curve_is_odd_witness :
  INT_MIN < 60 <= INT_MAX /\
  Final.mapSpeedStick (- 60) == - Final.mapSpeedStick 60 /\
  Final.mapRotStick (- 60) == - Final.mapRotStick 60.
Proof.
  assert (H : INT_MIN < 60 <= INT_MAX) by (unfold INT_MIN, INT_MAX; lia).
  split; [exact H | exact (stick_curve_is_odd 60 H)].
Defined.

(** X2.  The response curve never decreases. *)
Theorem stick_curve_is_monotone (a b : Z) :
  INT_MIN < a -> a <= b -> b <= INT_MAX ->
  (Final.mapSpeedStick a <= Final.mapSpeedStick b)%Q /\
  (Final.mapRotStick a <= Final.mapRotStick b)%Q.
Proof.
  intros Ha Hab Hb.
  unfold Final.mapSpeedStick, Final.mapRotStick.
  rewrite !(mapStick_shape _ a), !(mapStick_shape _ b)
    by (split; lia || apply Final_speedCal_well_spread
        || apply Final_rotCal_well_spread).
  split; apply shape_monotone;
    assumption || apply Final_speedCal_well_spread
    || apply Final_rotCal_well_spread.
Qed.

Lemma stick_curve_is_monotone_witness :
  INT_MIN < -100 /\ -100 <= 101 /\ 101 <= INT_MAX /\
  (Final.mapSpeedStick (-100) <= Final.mapSpeedStick 101)%Q /\
  (Final.mapRotStick (-100) <= Final.mapRotStick 101)%Q.
Proof.
  assert (Ha : INT_MIN < -100) by (unfold INT_MIN; lia).
  assert (Hab : -100 <= 101) by lia.
  assert (Hb : 101 <= INT_MAX) by (unfold INT_MAX; lia).
  split; [exact Ha|]. split; [exact Hab|]. split; [exact Hb|].
  exact (stick_curve_is_monotone (-100) 101 Ha Hab Hb).
Defined.

(** X3.  The curve stays within the configured maximum exactly on the stick
    range: beyond it the last segment is extrapolated, not clamped. *)
Theorem stick_curve_is_bounded_on_stick_range (raw : Z) :
  INT_MIN < raw <= INT_MAX ->
  ((-100 <= Final.mapSpeedStick raw <= 100)%Q <-> -128 <= raw <= 128) /\
  ((-80 <= Final.mapRotStick raw <= 80)%Q <-> -128 <= raw <= 128).
Proof.
  intros Hraw. pose proof (int_range_opp raw Hraw) as Hopp.
  unfold Final.mapSpeedStick, Final.mapRotStick.
  rewrite !(mapStick_shape _ raw)
    by (assumption || apply Final_speedCal_well_spread
        || apply Final_rotCal_well_spread).
  assert (Hgen : forall c, well_spread c -> OUT_MID c < OUT_MAX c ->
    ((- inject_Z (OUT_MAX c) <= shape c raw <= inject_Z (OUT_MAX c))%Q <->
     - STICK_MAX c <= raw <= STICK_MAX c)).
  { intros c Hc Hrise. split.
    - intros [Hlo Hhi].
      destruct (Z.lt_ge_cases (STICK_MAX c) raw) as [Hbig | Hle].
      { pose proof (shape_beyond_max c raw Hc Hrise Hbig). lra. }
      destruct (Z.lt_ge_cases raw (- STICK_MAX c)) as [Hsmall | Hge]; [| lia].
      pose proof (shape_beyond_max c (- raw) Hc Hrise ltac:(lia)) as H.
      rewrite shape_odd in H. lra.
    - apply shape_within_max. exact Hc. }
  split.
  - apply (Hgen Final.speedCal Final_speedCal_well_spread). simpl. lia.
  - apply (Hgen Final.rotCal Final_rotCal_well_spread). simpl. lia.
Qed.

Lemma stick_curve_is_bounded_on_stick_range_witness :
  INT_MIN < 200 <= INT_MAX /\
  ((-100 <= Final.mapSpeedStick 200 <= 100)%Q <-> -128 <= 200 <= 128) /\
  ((-80 <= Final.mapRotStick 200 <= 80)%Q <-> -128 <= 200 <= 128).
Proof.
  assert (H : INT_MIN < 200 <= INT_MAX) by (unfold INT_MIN, INT_MAX; lia).
  split; [exact H | exact (stick_curve_is_bounded_on_stick_range 200 H)].
Defined.

(** ** What [move] hands to [setSpeed] *)

Lemma absf_unit (x : Q) : (absf x <= 1)%Q -> (-1 <= x <= 1)%Q.
Proof. intros H. destruct (absf_le_self x). lra. Qed.

Lemma joint_clamp_within_unit (l r : Q) :
  (-1 <= fst (Final.joint_clamp l r) <= 1)%Q /\
  (-1 <= snd (Final.joint_clamp l r) <= 1)%Q.
Proof.
  destruct (Qlt_le_dec 1 (maxf (absf l) (absf r))) as [Hsat | Hin].
  - rewrite (joint_clamp_saturated l r Hsat). cbn [fst snd].
    destruct (maxf_upper (absf l) (absf r)) as [Hl Hr].
    split; apply absf_unit, scaled_within_unit; try assumption; lra.
  - rewrite (joint_clamp_idle l r Hin). cbn [fst snd].
    destruct (maxf_upper (absf l) (absf r)) as [Hl Hr].
    split; apply absf_unit; lra.
Qed.

(** X4.  Whatever the speed and the rotation, the two values [move] computes
    are within [[-1, 1]], and the clamp of [setSpeed] leaves them as they
    are. *)
Theorem move_hands_over_clamped_values (speed rot : Q) :
  let out := Final.mix speed rot in
  (-1 <= fst out <= 1)%Q /\ (-1 <= snd out <= 1)%Q /\
  verify (fst out) = fst out /\ verify (snd out) = snd out.
Proof.
  intros out. subst out. rewrite Final_mix_unfold.
  destruct (joint_clamp_within_unit
              (speed + snd (Final.rotation_split rot))
              (speed + fst (Final.rotation_split rot))) as [Hl Hr].
  split; [exact Hl|]. split; [exact Hr|].
  split; apply verify_inside; assumption.
Qed.

(** ** Equal values, equal writes *)

Lemma Qltb_compat (a a' b b' : Q) :
  a == a' -> b == b' -> Qltb a b = Qltb a' b'.
Proof.
  intros Ha Hb. destruct (Qltb_spec a b) as [H | H];
    destruct (Qltb_spec a' b') as [H' | H']; try reflexivity; exfalso.
  - apply H'. rewrite <- Ha, <- Hb. exact H.
  - apply H. rewrite Ha, Hb. exact H'.
Qed.

Lemma verify_compat (x y : Q) : x == y -> verify x == verify y.
Proof.
  intros E. unfold verify.
  rewrite (Qltb_compat x y (-1) (-1) E (Qeq_refl _)).
  rewrite (Qltb_compat 1 1 x y (Qeq_refl _) E).
  destruct (Qltb y (-1)); [reflexivity|].
  destruct (Qltb 1 y); [reflexivity | exact E].
Qed.

Lemma duty_compat (x y : Q) :
  x == y -> int_of_float (Qabs x * 255) = int_of_float (Qabs y * 255).
Proof.
  intros E.
  assert (Hx : (0 <= Qabs x * 255)%Q) by (pose proof (Qabs_nonneg x); nra).
  assert (Hy : (0 <= Qabs y * 255)%Q) by (pose proof (Qabs_nonneg y); nra).
  rewrite !int_of_float_floor by assumption.
  apply Qfloor_comp. rewrite E. reflexivity.
Qed.

Lemma direction_compat (fwd bwd : Z) (x y : Q) :
  x == y -> fst (direction fwd bwd x) = fst (direction fwd bwd y).
Proof.
  intros E. unfold direction.
  rewrite (Qltb_compat x y 0 0 E (Qeq_refl _)).
  destruct (Qltb y 0); reflexivity.
Qed.

Lemma setSpeed_events_compat (p : Pins) (l l' r r' : Q) :
  l == l' -> r == r' -> setSpeed_events p l r = setSpeed_events p l' r'.
Proof.
  intros El Er. rewrite !setSpeed_events_shape.
  pose proof (verify_compat l l' El) as Vl.
  pose proof (verify_compat r r' Er) as Vr.
  rewrite (direction_compat _ _ _ _ Vl), (direction_compat _ _ _ _ Vr).
  rewrite (duty_compat _ _ Vl), (duty_compat _ _ Vr). reflexivity.
Qed.

Lemma mapStick_dead_zone (c : Calibration) (raw : Z) :
  0 <= STICK_ZERO c < 2 ^ 31 -> Z.abs raw <= STICK_ZERO c ->
  mapStick c raw = 0%Q.
Proof.
  intros Hz Hd. unfold mapStick, abs_int.
  destruct (Z.eqb_spec raw INT_MIN) as [E | _].
  - subst raw. unfold INT_MIN in Hd. lia.
  - destruct (Z.leb_spec (Z.abs raw) (STICK_ZERO c)); [reflexivity | lia].
Qed.

(** With both sticks inside the dead zone, [move] stops both wheels. *)
Lemma move_at_rest_stops (speedStick rotStick : Z)
    (w : World Final.Action) :
  Z.abs speedStick <= 10 -> Z.abs rotStick <= 10 ->
  Final.move speedStick rotStick w =
    (tt, mkWorld (currentAction w) (nextAction w) (lastActionStart w)
           (stickReconnectTimer w) (clock w)
           (trace w ++ stamp (clock w)
              [DigitalWrite 32 1; DigitalWrite 33 0; DigitalWrite 19 1;
               DigitalWrite 21 0; AnalogWrite 25 0; AnalogWrite 18 0])).
Proof.
  intros Hs Hr. unfold Final.move, Final.mapSpeedStick, Final.mapRotStick.
  rewrite (mapStick_dead_zone Final.speedCal speedStick) by (simpl; lia).
  rewrite (mapStick_dead_zone Final.rotCal rotStick) by (simpl; lia).
  reflexivity.
Qed.

Lemma Final_rotation_split_values (rot : Q) :
  fst (Final.rotation_split rot) == - rot /\
  snd (Final.rotation_split rot) == rot.
Proof.
  unfold Final.rotation_split, Final.ROT_LEAD, Final.ROT_TRAIL.
  destruct (Qltb 0 (- rot)); cbn [fst snd]; split; ring.
Qed.

Lemma Sumo2_rotation_split_values (rot : Q) :
  fst (Sumo2.rotation_split rot) == - rot /\
  snd (Sumo2.rotation_split rot) == rot.
Proof.
  unfold Sumo2.rotation_split, Sumo2.ROT_LEAD, Sumo2.ROT_TRAIL.
  destruct (Qltb 0 (- rot)); cbn [fst snd]; split; ring.
Qed.

Lemma Sumo1_rotation_split_values (rot : Q) :
  fst (Sumo1.rotation_split rot) == - rot /\
  snd (Sumo1.rotation_split rot) == rot.
Proof.
  unfold Sumo1.rotation_split, Sumo1.ROT_LEAD, Sumo1.ROT_TRAIL.
  destruct (Qltb 0 (- rot)); cbn [fst snd]; split; ring.
Qed.

Lemma Sumo2_speedCal_well_spread : well_spread Sumo2.speedCal.
Proof. unfold well_spread; simpl; lia. Qed.

Lemma Sumo2_rotCal_well_spread : well_spread Sumo2.rotCal.
Proof. unfold well_spread; simpl; lia. Qed.

Lemma mapStick_within_max (c : Calibration) (raw : Z) :
  well_spread c -> - STICK_MAX c <= raw <= STICK_MAX c ->
  STICK_MAX c <= INT_MAX ->
  (- inject_Z (OUT_MAX c) <= mapStick c raw <= inject_Z (OUT_MAX c))%Q.
Proof.
  intros Hc Hraw Hint.
  rewrite (mapStick_shape c raw Hc)
    by (unfold INT_MIN, INT_MAX in *; lia).
  apply shape_within_max; assumption.
Qed.

Lemma absf_from_bounds (x m : Q) : (- m <= x <= m)%Q -> (absf x <= m)%Q.
Proof. intros [H1 H2]. apply absf_bound; lra. Qed.

(** X5.  With the rotation stick inside the dead zone and the speed stick on
    the stick range, [move] gives both wheels the same value, the mapped
    speed over 128, unscaled. *)
Theorem move_straight_drives_both_wheels_alike (speedStick rotStick : Z)
    (w : World Final.Action) :
  -128 <= speedStick <= 128 -> Z.abs rotStick <= 10 ->
  Final.move speedStick rotStick w =
    (tt, mkWorld (currentAction w) (nextAction w) (lastActionStart w)
           (stickReconnectTimer w) (clock w)
           (trace w ++ stamp (clock w)
              (setSpeed_events Final.pins
                 (Final.mapSpeedStick speedStick / 128)
                 (Final.mapSpeedStick speedStick / 128)))).
Proof.
  intros Hs Hr. unfold Final.move, Final.mapRotStick.
  rewrite (mapStick_dead_zone Final.rotCal rotStick) by (simpl; lia).
  change (inject_Z (STICK_MAX Final.rotCal)) with 128%Q.
  change (inject_Z (STICK_MAX Final.speedCal)) with 128%Q.
  set (speed := (Final.mapSpeedStick speedStick / 128)%Q).
  assert (Hb : (- (100 # 128) <= speed <= 100 # 128)%Q).
  { pose proof (mapStick_within_max Final.speedCal speedStick
                  Final_speedCal_well_spread) as H.
    change (STICK_MAX Final.speedCal) with 128 in H.
    change (inject_Z (OUT_MAX Final.speedCal)) with 100%Q in H.
    specialize (H Hs ltac:(unfold INT_MAX; lia)). fold (Final.mapSpeedStick speedStick) in H.
    subst speed. split.
    - apply Qle_shift_div_l; [reflexivity | lra].
    - apply Qle_shift_div_r; [reflexivity | lra]. }
  rewrite Final_mix_unfold.
  set (rot := (0 / 128)%Q).
  assert (Hrot : rot == 0) by reflexivity.
  destruct (Final_rotation_split_values rot) as [Er El].
  set (l := (speed + snd (Final.rotation_split rot))%Q).
  set (r := (speed + fst (Final.rotation_split rot))%Q).
  assert (Hl : l == speed) by (subst l; rewrite El, Hrot; ring).
  assert (Hrr : r == speed) by (subst r; rewrite Er, Hrot; ring).
  rewrite joint_clamp_idle.
  - unfold Final.setSpeed, emit.
    rewrite (setSpeed_events_compat Final.pins l speed r speed Hl Hrr).
    reflexivity.
  - apply maxf_bound; apply absf_from_bounds; rewrite ?Hl, ?Hrr; lra.
Qed.

Lemma move_straight_drives_both_wheels_alike_witness :
  let w := mkWorld Final.Neutral Final.Neutral 0 0 7 [] in
  -128 <= 127 <= 128 /\ Z.abs 0 <= 10 /\
  Final.move 127 0 w =
    (tt, mkWorld Final.Neutral Final.Neutral 0 0 7
           (stamp 7
              [DigitalWrite 32 1; DigitalWrite 33 0; DigitalWrite 19 1;
               DigitalWrite 21 0; AnalogWrite 25 197; AnalogWrite 18 197])).
Proof.
  intros w.
  assert (Hs : -128 <= 127 <= 128) by lia.
  assert (Hr : Z.abs 0 <= 10) by (simpl; lia).
  split; [exact Hs|]. split; [exact Hr|].
  exact (move_straight_drives_both_wheels_alike 127 0 w Hs Hr).
Defined.

(** X6.  In both sketches of [sumo.ino] the two sums stay within [[-1, 1]] for
    every pair of stick values on the stick range (70 + 30 <= 128): the
    clamp of [setSpeed] never alters what [move] computes. *)
Theorem sumo_ino_mixer_never_saturates (speedStick rotStick : Z) :
  -128 <= speedStick <= 128 -> -128 <= rotStick <= 128 ->
  let speed := (Sumo2.mapSpeedStick speedStick / 128)%Q in
  let rot := (Sumo2.mapRotStick rotStick / 128)%Q in
  (-1 <= fst (Sumo2.mix speed rot) <= 1)%Q /\
  (-1 <= snd (Sumo2.mix speed rot) <= 1)%Q /\
  verify (fst (Sumo2.mix speed rot)) = fst (Sumo2.mix speed rot) /\
  verify (snd (Sumo2.mix speed rot)) = snd (Sumo2.mix speed rot) /\
  Sumo1.mix (Sumo1.mapSpeedStick speedStick / 128)
            (Sumo1.mapRotStick rotStick / 128) = Sumo2.mix speed rot.
Proof.
  intros Hs Hr speed rot.
  assert (Hb : (- (70 # 128) <= speed <= 70 # 128)%Q).
  { pose proof (mapStick_within_max Sumo2.speedCal speedStick
                  Sumo2_speedCal_well_spread) as H.
    change (STICK_MAX Sumo2.speedCal) with 128 in H.
    change (inject_Z (OUT_MAX Sumo2.speedCal)) with 70%Q in H.
    specialize (H Hs ltac:(unfold INT_MAX; lia)).
    fold (Sumo2.mapSpeedStick speedStick) in H.
    subst speed. split.
    - apply Qle_shift_div_l; [reflexivity | lra].
    - apply Qle_shift_div_r; [reflexivity | lra]. }
  assert (Hc : (- (30 # 128) <= rot <= 30 # 128)%Q).
  { pose proof (mapStick_within_max Sumo2.rotCal rotStick
                  Sumo2_rotCal_well_spread) as H.
    change (STICK_MAX Sumo2.rotCal) with 128 in H.
    change (inject_Z (OUT_MAX Sumo2.rotCal)) with 30%Q in H.
    specialize (H Hr ltac:(unfold INT_MAX; lia)).
    fold (Sumo2.mapRotStick rotStick) in H.
    subst rot. split.
    - apply Qle_shift_div_l; [reflexivity | lra].
    - apply Qle_shift_div_r; [reflexivity | lra]. }
  assert (Hmix : Sumo2.mix speed rot =
            ((speed + snd (Sumo2.rotation_split rot))%Q,
             (speed + fst (Sumo2.rotation_split rot))%Q)).
  { unfold Sumo2.mix. destruct (Sumo2.rotation_split rot). reflexivity. }
  destruct (Sumo2_rotation_split_values rot) as [Er El].
  assert (H1 : (-1 <= fst (Sumo2.mix speed rot) <= 1)%Q)
    by (rewrite Hmix; cbn [fst]; rewrite El; lra).
  assert (H2 : (-1 <= snd (Sumo2.mix speed rot) <= 1)%Q)
    by (rewrite Hmix; cbn [snd]; rewrite Er; lra).
  split; [exact H1|]. split; [exact H2|].
  split; [apply verify_inside; exact H1|].
  split; [apply verify_inside; exact H2|].
  reflexivity.
Qed.

Lemma sumo_ino_mixer_never_saturates_witness :
  -128 <= 128 <= 128 /\ -128 <= -128 <= 128 /\
  (-1 <= fst (Sumo2.mix (Sumo2.mapSpeedStick 128 / 128)
                        (Sumo2.mapRotStick (-128) / 128)) <= 1)%Q /\
  (-1 <= snd (Sumo2.mix (Sumo2.mapSpeedStick 128 / 128)
                        (Sumo2.mapRotStick (-128) / 128)) <= 1)%Q.
Proof.
  assert (Hs : -128 <= 128 <= 128) by lia.
  assert (Hr : -128 <= -128 <= 128) by lia.
  split; [exact Hs|]. split; [exact Hr|].
  destruct (sumo_ino_mixer_never_saturates 128 (-128) Hs Hr) as (H1 & H2 & _).
  split; [exact H1 | exact H2].
Defined.

(** With the calibration of [part_000] the sums do leave [[-1, 1]]:
    100 + 80 > 128. *)
Example Final_sums_can_saturate :
  let speed := (Final.mapSpeedStick 127 / 128)%Q in
  let rot := (Final.mapRotStick 127 / 128)%Q in
  (1 < speed + snd (Final.rotation_split rot))%Q.
Proof. vm_compute. reflexivity. Qed.

(** ** The idle scheduler *)

(** X8.  With no action running, [processActionQueue] starts the queued action
    at once, stamps it with the current time and writes nothing to the
    motors; with nothing queued either it changes nothing and returns 0. *)
Theorem idle_queue_is_promoted_at_once (w : World Final.Action) :
  currentAction w = Final.Neutral ->
  Final.processActionQueue w =
    if Final.Action_eqb (nextAction w) Final.Neutral then (0, w)
    else (1, mkWorld (nextAction w) Final.Neutral (to_ulong (clock w))
                (stickReconnectTimer w) (clock w) (trace w)).
Proof.
  intros Hidle. destruct w as [cur nxt last timer clk tr].
  cbn in Hidle. subst cur. destruct nxt; reflexivity.
Qed.

Lemma idle_queue_is_promoted_at_once_witness :
  let w := mkWorld Final.Neutral Final.SpinL 5 0 1000 [] in
  currentAction w = Final.Neutral /\
  Final.processActionQueue w =
    (1, mkWorld Final.SpinL Final.Neutral 1000 0 1000 []).
Proof.
  intros w.
  assert (H : currentAction w = Final.Neutral) by reflexivity.
  split; [exact H | exact (idle_queue_is_promoted_at_once w H)].
Defined.

(** ** Wrap-around of [millis] *)

(** X9.  The elapsed time the sketch computes is the true one, also across a
    wrap of the 32-bit counter, as long as less than [2^32] ms passed. *)
Theorem elapsed_survives_wrap_around (w : World Final.Action) (start : Z) :
  lastActionStart w = to_ulong start ->
  0 <= clock w - start < ULONG_MOD ->
  elapsed w = clock w - start.
Proof.
  intros Hs Hd. unfold elapsed, usub, to_ulong in *. rewrite Hs.
  rewrite Zminus_mod_idemp_l, Zminus_mod_idemp_r.
  apply Z.mod_small. exact Hd.
Qed.

Lemma elapsed_survives_wrap_around_witness :
  let w := mkWorld Final.DashF Final.Neutral 4294967196 0 4294967446 [] in
  lastActionStart w = to_ulong 4294967196 /\
  0 <= clock w - 4294967196 < ULONG_MOD /\
  elapsed w = 250.
Proof.
  intros w.
  assert (Hs : lastActionStart w = to_ulong 4294967196) by reflexivity.
  assert (Hd : 0 <= clock w - 4294967196 < ULONG_MOD)
    by (unfold ULONG_MOD; simpl; lia).
  split; [exact Hs|]. split; [exact Hd|].
  exact (elapsed_survives_wrap_around w 4294967196 Hs Hd).
Defined.

(** ** One iteration of [loop] *)

Lemma written_nil {Act : Type} (w : World Act) : written w [] = w.
Proof. destruct w. unfold written, stamp. simpl. rewrite app_nil_r. reflexivity. Qed.

Lemma written_written {Act : Type} (w : World Act) (e1 e2 : list Event) :
  written (written w e1) e2 = written w (e1 ++ e2).
Proof.
  unfold written, stamp. simpl. rewrite map_app, app_assoc. reflexivity.
Qed.

Lemma executeAction_writes (w : World Final.Action) :
  exists evs,
    Final.executeAction w = (tt, written w evs) /\
    (currentAction w = Final.Neutral -> evs = []) /\
    (currentAction w <> Final.Neutral -> wheel_command evs).
Proof.
  destruct w as [cur nxt last timer clk tr]. unfold written, wheel_command.
  destruct cur; exec.
  - exists []. unfold stamp. simpl. rewrite app_nil_r.
    repeat split; congruence.
  - eexists. split; [reflexivity|]. split; [discriminate|]. eauto.
  - eexists. split; [reflexivity|]. split; [discriminate|]. eauto.
  - destruct (Final.SPIN_ACTIVE <? usub (to_ulong clk) last); cbn;
      (eexists; split; [reflexivity|]; split; [discriminate|]; eauto).
  - destruct (Final.SPIN_ACTIVE <? usub (to_ulong clk) last); cbn;
      (eexists; split; [reflexivity|]; split; [discriminate|]; eauto).
Qed.

Lemma processActionQueue_writes (w : World Final.Action) :
  exists pre,
    trace (snd (Final.processActionQueue w)) = trace w ++ stamp (clock w) pre /\
    (pre = [] \/ pre = setSpeed_events Final.pins 0 0) /\
    clock (snd (Final.processActionQueue w)) = clock w /\
    stickReconnectTimer (snd (Final.processActionQueue w)) =
      stickReconnectTimer w.
Proof.
  destruct w as [cur nxt last timer clk tr].
  destruct cur, nxt; exec;
    try (exists []; unfold stamp; simpl; rewrite app_nil_r; auto; fail);
    match goal with |- context [?c <? ?e] => destruct (c <? e) end; cbn;
    first
      [ exists []; unfold stamp; simpl; rewrite app_nil_r; auto; fail
      | exists (setSpeed_events Final.pins 0 0); auto ].
Qed.

Lemma processController_writes (stick : Controller) (status : Z)
    (w : World Final.Action) :
  exists evs nxt,
    Final.processController stick status w =
      (tt, mkWorld (currentAction w) nxt (lastActionStart w)
             (stickReconnectTimer w) (clock w)
             (trace w ++ stamp (clock w) evs)) /\
    (status = 0 -> wheel_command evs) /\
    (status <> 0 -> evs = []) /\
    (status = 2 -> nxt = nextAction w).
Proof.
  unfold Final.processController, bind.
  set (queue := if btn_x stick then Final.request Final.DashF
                else if btn_sq stick then Final.request Final.DashB
                else if btn_r1 stick then Final.request Final.SpinR
                else if btn_l1 stick then Final.request Final.SpinL
                else ret tt).
  assert (Hq : exists nxt,
    when (negb (status =? 2)) queue w =
      (tt, mkWorld (currentAction w) nxt (lastActionStart w)
             (stickReconnectTimer w) (clock w) (trace w)) /\
    (status = 2 -> nxt = nextAction w)).
  { destruct (Z.eqb_spec status 2) as [E | N]; cbn [negb when].
    - exists (nextAction w). destruct w. split; [reflexivity | auto].
    - subst queue.
      destruct (btn_x stick); [rewrite request_admits; eexists; split; [reflexivity | tauto]|].
      destruct (btn_sq stick); [rewrite request_admits; eexists; split; [reflexivity | tauto]|].
      destruct (btn_r1 stick); [rewrite request_admits; eexists; split; [reflexivity | tauto]|].
      destruct (btn_l1 stick); [rewrite request_admits; eexists; split; [reflexivity | tauto]|].
      exists (nextAction w). destruct w. split; [reflexivity | tauto]. }
  destruct Hq as (nxt & Eq & Hfull). rewrite Eq.
  destruct (Z.eqb_spec status 0) as [E0 | N0]; cbn [when].
  - unfold Final.move. destruct (Final.mix _ _) as [l r].
    exists (setSpeed_events Final.pins l r), nxt.
    split; [reflexivity|]. split; [intros _; exists l, r; reflexivity|].
    split; [tauto | exact Hfull].
  - exists [], nxt. unfold stamp. simpl. rewrite app_nil_r.
    split; [reflexivity|]. split; [tauto|]. split; [reflexivity | exact Hfull].
Qed.

Lemma status_zero_iff_idle (w : World Final.Action) :
  status_of w = 0 <-> currentAction w = Final.Neutral.
Proof.
  unfold status_of. destruct (currentAction w), (nextAction w);
    split; intros H; try reflexivity; try discriminate.
Qed.

Lemma status_two_when_full (w : World Final.Action) :
  currentAction w <> Final.Neutral -> nextAction w <> Final.Neutral ->
  status_of w = 2.
Proof.
  unfold status_of. destruct (currentAction w), (nextAction w);
    intros H1 H2; try reflexivity; congruence.
Qed.

(** *** The scheduler over the binary32 output stage *)

(** The scheduler calls [setSpeed] on 0, 1 and -1 only, where the
    binary32 output stage writes what the exact one writes. *)
Lemma setSpeed_on_constants :
  Final32.setSpeed (Float32.of_int 0) (Float32.of_int 0) = Final.setSpeed 0 0 /\
  Final32.setSpeed Final32.DASH_SPEED Final32.DASH_SPEED =
    Final.setSpeed Final.DASH_SPEED Final.DASH_SPEED /\
  Final32.setSpeed (Float32.opp Final32.DASH_SPEED)
                   (Float32.opp Final32.DASH_SPEED) =
    Final.setSpeed (- Final.DASH_SPEED) (- Final.DASH_SPEED) /\
  Final32.setSpeed (Float32.mul Final32.SPIN_SPEED Final32.ROT_LEAD)
                   (Float32.mul (Float32.opp Final32.SPIN_SPEED)
                                Final32.ROT_TRAIL) =
    Final.setSpeed (Final.SPIN_SPEED * Final.ROT_LEAD)
                   (- Final.SPIN_SPEED * Final.ROT_TRAIL) /\
  Final32.setSpeed (Float32.mul (Float32.opp Final32.SPIN_SPEED)
                                Final32.ROT_TRAIL)
                   (Float32.mul Final32.SPIN_SPEED Final32.ROT_LEAD) =
    Final.setSpeed (- Final.SPIN_SPEED * Final.ROT_TRAIL)
                   (Final.SPIN_SPEED * Final.ROT_LEAD).
Proof.
  unfold Final32.setSpeed, Final.setSpeed.
  repeat split; apply f_equal; vm_compute; reflexivity.
Qed.

Lemma Final32_reset_agrees : Final32.reset = Final.reset.
Proof. exact (proj1 setSpeed_on_constants). Qed.

Lemma Final32_processActionQueue_agrees :
  Final32.processActionQueue = Final.processActionQueue.
Proof.
  unfold Final32.processActionQueue, Final.processActionQueue.
  rewrite Final32_reset_agrees. reflexivity.
Qed.

Lemma Final32_executeAction_agrees :
  Final32.executeAction = Final.executeAction.
Proof.
  destruct setSpeed_on_constants as (E0 & Ef & Eb & Er & El).
  unfold Final32.executeAction, Final.executeAction,
         Final32.dashF, Final32.dashB, Final32.spinR, Final32.spinL,
         Final.dashF, Final.dashB, Final.spinR, Final.spinL.
  rewrite E0, Ef, Eb, Er, El. reflexivity.
Qed.

Ltac exec32 :=
  cbv [Final32.processController Final32.move
       Final.processActionQueue Final.checkCooldown Final.checkDebounce
       Final.reset Final.setSpeed Final.executeAction
       Final.request Final.dashF
       Final.dashB Final.spinR Final.spinL
       bind ret gets when millis emit delay set_currentAction
       set_nextAction set_lastActionStart set_stickReconnectTimer];
  cbn.

(** One call of [setSpeed] writes the direction pins of both wheels and
    then both duties. *)
Lemma iteration_command_is_one_call (stick : Controller)
    (w1 : World Final.Action) :
  exists l r : Float32.float,
    iteration_command stick w1 = Final32.setSpeed_events Final.pins l r.
Proof.
  unfold iteration_command, running_command.
  destruct (currentAction w1).
  - unfold Final32.move_events.
    destruct (Final32.mix _ _) as [l r]. exists l, r. reflexivity.
  - exists (Float32.of_int 1), (Float32.of_int 1). reflexivity.
  - exists (Float32.of_int (-1)), (Float32.of_int (-1)). reflexivity.
  - destruct (Final.SPIN_ACTIVE <? elapsed w1).
    + exists (Float32.of_int 0), (Float32.of_int 0). reflexivity.
    + exists (Float32.of_int 1), (Float32.of_int (-1)). reflexivity.
  - destruct (Final.SPIN_ACTIVE <? elapsed w1).
    + exists (Float32.of_int 0), (Float32.of_int 0). reflexivity.
    + exists (Float32.of_int (-1)), (Float32.of_int 1). reflexivity.
Qed.

(** X10.  An iteration of [loop] with the link up writes, at its start
    time, the stop that ends a spin whose cooldown has passed (and
    nothing otherwise) and then exactly one wheel command: that of
    [executeAction] for the action the queue step leaves running (full
    duty both ways for a dash; for a spin opposite wheels at full duty up
    to 100 ms after its start, a stop after), or that of
    [move(ly, rx)] when no action runs.  The iteration then waits
    50 ms. *)
Theorem connected_iteration_commands_wheels_once (stick : Controller)
    (w : World Final.Action) :
  let w1 := snd (Final32.processActionQueue w) in
  trace (snd (Final32.loop true stick w)) =
    trace w ++
    stamp (clock w) (spin_end_stop w ++ iteration_command stick w1) /\
  (exists l r : Float32.float,
     iteration_command stick w1 = Final32.setSpeed_events Final.pins l r) /\
  clock (snd (Final32.loop true stick w)) = clock w + 50.
Proof.
  cbv zeta.
  split; [| split; [apply iteration_command_is_one_call|]];
    unfold Final32.loop;
    rewrite Final32_processActionQueue_agrees, Final32_executeAction_agrees;
    unfold spin_end_stop, iteration_command, elapsed;
    destruct w as [cur nxt last timer clk tr];
    destruct (btn_x stick) eqn:Bx, (btn_sq stick) eqn:Bs,
             (btn_r1 stick) eqn:Br, (btn_l1 stick) eqn:Bl;
    destruct cur, nxt; exec32; rewrite ?Bx, ?Bs, ?Br, ?Bl; cbn;
    repeat match goal with
           | |- context [?c <? ?e] => destruct (c <? e) eqn:?; cbn
           end;
    unfold stamp; rewrite ?map_app, <- ?app_assoc, ?app_nil_r;
    reflexivity.
Qed.

Lemma disconnected_loop_freezes (stick : Controller)
    (w : World Final.Action) :
  currentAction (snd (Final.loop false stick w)) = currentAction w /\
  nextAction (snd (Final.loop false stick w)) = nextAction w /\
  lastActionStart (snd (Final.loop false stick w)) = lastActionStart w /\
  clock (snd (Final.loop false stick w)) = clock w.
Proof.
  destruct w as [cur nxt last timer clk tr].
  cbv [Final.loop Final.reset Final.setSpeed Final.removePairedDevices
       bind ret gets millis emit set_stickReconnectTimer
       trace clock stickReconnectTimer currentAction nextAction
       lastActionStart fst snd].
  destruct (Final.STICK_RECONNECT_DELAY <? usub (to_ulong clk) timer);
    repeat split.
Qed.

(** X11.  Until more than its cooldown has elapsed, no iteration of [loop],
    with or without a link and whatever the buttons, replaces or restarts
    the running action; an action already queued behind it stays queued. *)
Theorem running_action_is_not_preempted (isConnected : bool)
    (stick : Controller) (w : World Final.Action) :
  currentAction w <> Final.Neutral ->
  elapsed w <= Final.getCooldown (currentAction w) ->
  let w' := snd (Final.loop isConnected stick w) in
  currentAction w' = currentAction w /\
  lastActionStart w' = lastActionStart w /\
  (nextAction w <> Final.Neutral -> nextAction w' = nextAction w).
Proof.
  intros Hrun Hwait. destruct isConnected.
  - pose proof (waiting_action_stays w Hrun Hwait) as Hsame.
    destruct (status_is_status_of w) as [Hst _]. rewrite Hsame in Hst.
    unfold Final.loop, bind.
    destruct (Final.processActionQueue w) as [status w1].
    cbn [fst snd] in *. subst w1.
    destruct (executeAction_writes w) as (e1 & Ex & _). rewrite Ex.
    destruct (processController_writes stick status (written w e1))
      as (e2 & nxt & Ec & _ & _ & Hfull).
    rewrite Ec. cbn. split; [reflexivity|]. split; [reflexivity|].
    intros Hq. apply Hfull. rewrite Hst.
    apply status_two_when_full; assumption.
  - destruct (disconnected_loop_freezes stick w) as (Hc & Hn & Hl & _).
    cbv zeta. rewrite Hc, Hn, Hl. auto.
Qed.

Lemma running_action_is_not_preempted_witness :
  let stick := mkController 0 0 true true true true in
  let w := mkWorld Final.SpinL Final.DashB 1000 0 1300 [] in
  currentAction w <> Final.Neutral /\
  elapsed w <= Final.getCooldown (currentAction w) /\
  currentAction (snd (Final.loop true stick w)) = Final.SpinL /\
  lastActionStart (snd (Final.loop true stick w)) = 1000 /\
  (nextAction w <> Final.Neutral ->
   nextAction (snd (Final.loop true stick w)) = Final.DashB).
Proof.
  intros stick w.
  assert (Hrun : currentAction w <> Final.Neutral) by discriminate.
  assert (Hwait : elapsed w <= Final.getCooldown (currentAction w))
    by (vm_compute; discriminate).
  split; [exact Hrun|]. split; [exact Hwait|].
  exact (running_action_is_not_preempted true stick w Hrun Hwait).
Defined.

Lemma run_without_link_freezes (ticks : list Tick)
    (w : World Final.Action) :
  Forall (fun tk => connected tk = false) ticks ->
  let w' := snd (Final.run ticks w) in
  currentAction w' = currentAction w /\
  nextAction w' = nextAction w /\
  lastActionStart w' = lastActionStart w.
Proof.
  intros Hdown. revert w.
  induction Hdown as [| tk rest Hoff _ IH]; intros w; [cbn; auto|].
  cbn [Final.run]. unfold bind. cbn [delay].
  rewrite Hoff.
  match goal with |- context [Final.loop false ?s ?v] =>
    destruct (disconnected_loop_freezes s v) as (Hc & Hn & Hl & _);
    destruct (Final.loop false s v) as [[] w1] end.
  cbn [snd currentAction nextAction lastActionStart] in *.
  destruct (IH w1) as (Ic & In & Il).
  cbv zeta. rewrite Ic, In, Il, Hc, Hn, Hl. auto.
Qed.

(** ** From a button to a running action *)

Lemma requested_is_an_action (stick : Controller) (a : Final.Action) :
  requested stick = Some a -> a <> Final.Neutral.
Proof.
  rewrite requested_cases.
  destruct (btn_x stick), (btn_sq stick), (btn_r1 stick), (btn_l1 stick);
    intros H; inversion H; discriminate.
Qed.

Lemma processController_queues (stick : Controller) (status : Z)
    (a : Final.Action) (w : World Final.Action) :
  status <> 2 -> requested stick = Some a ->
  exists evs,
    Final.processController stick status w =
      (tt, mkWorld (currentAction w)
             (if admitted a w then a else nextAction w)
             (lastActionStart w) (stickReconnectTimer w) (clock w)
             (trace w ++ stamp (clock w) evs)).
Proof.
  intros Hst Hreq. rewrite requested_cases in Hreq.
  unfold Final.processController.
  apply Z.eqb_neq in Hst. rewrite Hst. cbn [negb when].
  assert (Hfirst :
    (if btn_x stick then Final.request Final.DashF
     else if btn_sq stick then Final.request Final.DashB
     else if btn_r1 stick then Final.request Final.SpinR
     else if btn_l1 stick then Final.request Final.SpinL
     else ret tt) = Final.request a).
  { destruct (btn_x stick), (btn_sq stick), (btn_r1 stick), (btn_l1 stick);
      inversion Hreq; reflexivity. }
  rewrite Hfirst. unfold bind. rewrite request_admits.
  destruct (status =? 0); cbn [when].
  - match goal with |- context [Final.move ?x ?y ?v] =>
      destruct (move_keeps_globals x y v) as [evs E]; rewrite E end.
    exists evs. reflexivity.
  - exists []. unfold stamp. cbn. rewrite app_nil_r. reflexivity.
Qed.

Lemma idle_start (nxt : Final.Action) (last timer clk : Z)
    (tr : list (Z * Event)) :
  nxt <> Final.Neutral ->
  Final.processActionQueue (mkWorld Final.Neutral nxt last timer clk tr) =
    (1, mkWorld nxt Final.Neutral (to_ulong clk) timer clk tr).
Proof. intros H. destruct nxt; try congruence; reflexivity. Qed.

Lemma idle_iteration_queues (stick : Controller) (a : Final.Action)
    (last timer clk : Z) (tr : list (Z * Event)) :
  requested stick = Some a ->
  exists tr',
    Final.loop true stick
      (mkWorld Final.Neutral Final.Neutral last timer clk tr) =
    (tt, mkWorld Final.Neutral a last timer (clk + 50) tr').
Proof.
  intros Hreq.
  pose proof (requested_is_an_action stick a Hreq) as Ha.
  set (w := mkWorld Final.Neutral Final.Neutral last timer clk tr).
  unfold Final.loop, bind.
  change (Final.processActionQueue w) with (0, w). cbv beta iota.
  change (Final.executeAction w) with (tt, w). cbv beta iota.
  destruct (processController_queues stick 0 a w ltac:(lia) Hreq) as [evs Ec].
  rewrite Ec.
  assert (Hadm : admitted a w = true).
  { unfold admitted. cbn [currentAction w]. destruct a; try congruence; reflexivity. }
  rewrite Hadm. eexists. reflexivity.
Qed.

Lemma queued_iteration_starts (stick : Controller) (a : Final.Action)
    (last timer clk : Z) (tr : list (Z * Event)) :
  a <> Final.Neutral ->
  exists nxt tr',
    Final.loop true stick (mkWorld Final.Neutral a last timer clk tr) =
    (tt, mkWorld a nxt (to_ulong clk) timer (clk + 50) tr').
Proof.
  intros Ha. unfold Final.loop, bind. rewrite (idle_start a) by exact Ha.
  match goal with |- context [Final.executeAction ?v] =>
    destruct (executeAction_writes v) as (e1 & Ex & _); rewrite Ex end.
  match goal with |- context [Final.processController ?s ?st ?v] =>
    destruct (processController_writes s st v) as (e2 & nxt & Ec2 & _);
    rewrite Ec2 end.
  eexists. eexists. reflexivity.
Qed.

(** X12.  A button pressed while nothing runs and nothing is queued is queued
    in that iteration and starts in the next one, whose start time it
    gets; the buttons of the next iteration do not matter. *)
Theorem button_while_idle_starts_next_iteration
    (stick stick2 : Controller) (d0 d : Z) (a : Final.Action)
    (w : World Final.Action) :
  currentAction w = Final.Neutral ->
  nextAction w = Final.Neutral ->
  requested stick = Some a ->
  let w1 := snd (Final.run [mkTick d0 true stick] w) in
  let w2 := snd (Final.run [mkTick d0 true stick; mkTick d true stick2] w) in
  currentAction w1 = Final.Neutral /\
  nextAction w1 = a /\
  currentAction w2 = a /\
  lastActionStart w2 = to_ulong (clock w + d0 + 50 + d).
Proof.
  intros Hc Hn Hreq.
  pose proof (requested_is_an_action stick a Hreq) as Ha.
  destruct w as [cur nxt last timer clk tr]. cbn in Hc, Hn. subst cur nxt.
  destruct (idle_iteration_queues stick a last timer (clk + d0) tr Hreq)
    as [tr1 E1].
  destruct (queued_iteration_starts stick2 a last timer (clk + d0 + 50 + d)
              tr1 Ha) as (nxt2 & tr2 & E2).
  cbn [Final.run idle connected pad]. unfold bind, delay, ret.
  cbn [currentAction nextAction lastActionStart stickReconnectTimer clock trace].
  rewrite E1.
  cbn [currentAction nextAction lastActionStart stickReconnectTimer clock
       trace snd].
  rewrite E2. cbn. repeat split.
Qed.

Lemma button_while_idle_starts_next_iteration_witness :
  let stick := mkController 0 0 false false true false in
  let idle_pad := mkController 0 0 false false false false in
  let w := mkWorld Final.Neutral Final.Neutral 0 0 1000 [] in
  currentAction w = Final.Neutral /\
  nextAction w = Final.Neutral /\
  requested stick = Some Final.SpinR /\
  currentAction (snd (Final.run [mkTick 0 true stick] w)) = Final.Neutral /\
  nextAction (snd (Final.run [mkTick 0 true stick] w)) = Final.SpinR /\
  currentAction
    (snd (Final.run [mkTick 0 true stick; mkTick 0 true idle_pad] w)) =
    Final.SpinR /\
  lastActionStart
    (snd (Final.run [mkTick 0 true stick; mkTick 0 true idle_pad] w)) = 1050.
Proof.
  intros stick idle_pad w.
  assert (Hc : currentAction w = Final.Neutral) by reflexivity.
  assert (Hn : nextAction w = Final.Neutral) by reflexivity.
  assert (Hr : requested stick = Some Final.SpinR) by reflexivity.
  split; [exact Hc|]. split; [exact Hn|]. split; [exact Hr|].
  exact (button_while_idle_starts_next_iteration
           stick idle_pad 0 0 Final.SpinR w Hc Hn Hr).
Defined.

(** ** What the running action writes *)

(** X15.  In the sketch of [part_000] a spin drives the wheels against each
    other at full duty up to and including 100 ms after it began (right
    spin: right wheel backward, left wheel forward; left spin mirrored)
    and writes duty 0 to both from then on. *)
Theorem spin_turns_then_coasts (w : World Final.Action) :
  is_spin (currentAction w) = true ->
  Final.executeAction w =
    (tt, written w
       (if elapsed w <=? 100 then
          match currentAction w with
          | Final.SpinR => right_backward ++ left_forward ++ duties 255 255
          | _ => right_forward ++ left_backward ++ duties 255 255
          end
        else right_forward ++ left_forward ++ duties 0 0)).
Proof.
  intros Hspin. unfold elapsed, written.
  destruct w as [cur nxt last timer clk tr].
  cbn [currentAction nextAction lastActionStart stickReconnectTimer clock
       trace] in *.
  rewrite Z.leb_antisym.
  destruct cur; try discriminate; exec;
    change Final.SPIN_ACTIVE with 100;
    destruct (100 <? usub (to_ulong clk) last); reflexivity.
Qed.

Lemma spin_turns_then_coasts_witness :
  let w := mkWorld Final.SpinL Final.Neutral 0 0 100 [] in
  is_spin (currentAction w) = true /\
  Final.executeAction w =
    (tt, mkWorld Final.SpinL Final.Neutral 0 0 100
           (stamp 100 (right_forward ++ left_backward ++ duties 255 255))).
Proof.
  intros w.
  assert (H : is_spin (currentAction w) = true) by reflexivity.
  split; [exact H | exact (spin_turns_then_coasts w H)].
Defined.

(** X16.  A dash drives both wheels at full duty, forward or backward, on every
    call, however long it has been running; with no action running
    [executeAction] writes nothing. *)
Theorem dash_drives_at_full_duty (w : World Final.Action) :
  is_spin (currentAction w) = false ->
  Final.executeAction w =
    (tt, written w
       match currentAction w with
       | Final.DashF => right_forward ++ left_forward ++ duties 255 255
       | Final.DashB => right_backward ++ left_backward ++ duties 255 255
       | _ => []
       end).
Proof.
  intros Hspin. unfold written.
  destruct w as [cur nxt last timer clk tr].
  cbn [currentAction nextAction lastActionStart stickReconnectTimer clock
       trace] in *.
  destruct cur; try discriminate; exec; try reflexivity.
  unfold stamp. simpl. rewrite app_nil_r. reflexivity.
Qed.

Lemma dash_drives_at_full_duty_witness :
  let w := mkWorld Final.DashB Final.Neutral 0 0 299 [] in
  is_spin (currentAction w) = false /\
  Final.executeAction w =
    (tt, mkWorld Final.DashB Final.Neutral 0 0 299
           (stamp 299 (right_backward ++ left_backward ++ duties 255 255))).
Proof.
  intros w.
  assert (H : is_spin (currentAction w) = false) by reflexivity.
  split; [exact H | exact (dash_drives_at_full_duty w H)].
Defined.

(** ** Reconnect attempts over a run *)

Lemma Final_reconnect_is_rate_limited_witness :
  let stick := mkController 0 0 false false false false in
  let ticks := [mkTick 4000 false stick; mkTick 10 false stick;
                mkTick 3000 false stick; mkTick 5 true stick] in
  0 <= 0 /\
  Forall (fun tk => 0 <= idle tk) ticks /\
  rate_limited 3000
    (attempts (snd (Final.run ticks (snd (Final.setup (Final.power_on 0)))))).
Proof.
  intros stick ticks.
  assert (Hb : 0 <= 0) by lia.
  assert (Ht : Forall (fun tk => 0 <= idle tk) ticks)
    by (repeat constructor; simpl; lia).
  split; [exact Hb|]. split; [exact Ht|].
  exact (Final_reconnect_is_rate_limited 0 ticks Hb Ht).
Defined.

(** ** Across a loss of the link *)

Lemma processActionQueue_expired (w : World Final.Action) :
  currentAction w <> Final.Neutral ->
  Final.getCooldown (currentAction w) < elapsed w ->
  currentAction (snd (Final.processActionQueue w)) = nextAction w.
Proof.
  intros Hrun Hexp. unfold elapsed in Hexp.
  world w; cbn in Hrun, Hexp; try congruence;
    apply Z.ltb_lt in Hexp; exec; rewrite Hexp; reflexivity.
Qed.

Lemma connected_loop_keeps_queue_step (stick : Controller)
    (w : World Final.Action) :
  currentAction (snd (Final.loop true stick w)) =
    currentAction (snd (Final.processActionQueue w)) /\
  lastActionStart (snd (Final.loop true stick w)) =
    lastActionStart (snd (Final.processActionQueue w)).
Proof.
  unfold Final.loop, bind.
  destruct (Final.processActionQueue w) as [status w1]. cbn [snd].
  destruct (executeAction_writes w1) as (e1 & Ex & _). rewrite Ex.
  destruct (processController_writes stick status (written w1 e1))
    as (e2 & nxt & Ec & _).
  rewrite Ec. cbn. auto.
Qed.

(** X13.  A loss of the link discards nothing: however many iterations pass
    without it, the running action, the queued one and [lastActionStart]
    are as they were; and if the running action's cooldown has passed
    meanwhile, the first iteration with the link starts the queued action,
    whatever the buttons. *)
Theorem link_loss_keeps_the_queue (ticks : list Tick) (stick : Controller)
    (w : World Final.Action) :
  Forall (fun tk => connected tk = false) ticks ->
  let w1 := snd (Final.run ticks w) in
  currentAction w1 = currentAction w /\
  nextAction w1 = nextAction w /\
  lastActionStart w1 = lastActionStart w /\
  (currentAction w <> Final.Neutral ->
   Final.getCooldown (currentAction w) < elapsed w1 ->
   currentAction (snd (Final.loop true stick w1)) = nextAction w).
Proof.
  intros Hdown w1.
  destruct (run_without_link_freezes ticks w Hdown) as (Hc & Hn & Hl).
  fold w1 in Hc, Hn, Hl.
  split; [exact Hc|]. split; [exact Hn|]. split; [exact Hl|].
  intros Hrun Hexp.
  destruct (connected_loop_keeps_queue_step stick w1) as [E _]. rewrite E.
  rewrite <- Hn. apply processActionQueue_expired; rewrite Hc; assumption.
Qed.

Lemma link_loss_keeps_the_queue_witness :
  let stick := mkController 0 0 false false false false in
  let ticks := [mkTick 500 false stick; mkTick 4000 false stick] in
  let w := mkWorld Final.DashF Final.SpinR 100 0 200 [] in
  Forall (fun tk => connected tk = false) ticks /\
  currentAction (snd (Final.run ticks w)) = Final.DashF /\
  nextAction (snd (Final.run ticks w)) = Final.SpinR /\
  lastActionStart (snd (Final.run ticks w)) = 100 /\
  (currentAction w <> Final.Neutral ->
   Final.getCooldown (currentAction w) < elapsed (snd (Final.run ticks w)) ->
   currentAction (snd (Final.loop true stick (snd (Final.run ticks w)))) =
     Final.SpinR).
Proof.
  intros stick ticks w.
  assert (H : Forall (fun tk => connected tk = false) ticks)
    by (repeat constructor).
  split; [exact H | exact (link_loss_keeps_the_queue ticks stick w H)].
Defined.

(** ** A robot left alone *)

Lemma motors_off_app (tr tr' : list (Z * Event)) :
  motors_off tr -> motors_off tr' -> motors_off (tr ++ tr').
Proof. intros H H'. apply Forall_app. split; assumption. Qed.

Lemma motors_off_stop (t : Z) :
  motors_off (stamp t (setSpeed_events Final.pins 0 0)).
Proof. rewrite stop_events. repeat constructor. Qed.

Lemma at_rest_no_button (stick : Controller) :
  requested stick = None ->
  btn_x stick = false /\ btn_sq stick = false /\
  btn_r1 stick = false /\ btn_l1 stick = false.
Proof.
  rewrite requested_cases.
  destruct (btn_x stick), (btn_sq stick), (btn_r1 stick), (btn_l1 stick);
    intros H; try discriminate; auto.
Qed.

Lemma idle_loop_at_rest (isConnected : bool) (stick : Controller)
    (last timer clk : Z) (tr : list (Z * Event)) :
  at_rest stick -> motors_off tr ->
  exists timer' clk' tr',
    Final.loop isConnected stick
      (mkWorld Final.Neutral Final.Neutral last timer clk tr) =
    (tt, mkWorld Final.Neutral Final.Neutral last timer' clk' tr') /\
    motors_off tr'.
Proof.
  intros (Hreq & Hy & Hx) Hoff.
  destruct (at_rest_no_button stick Hreq) as (Bx & Bs & Br & Bl).
  set (w := mkWorld Final.Neutral Final.Neutral last timer clk tr).
  destruct isConnected.
  - unfold Final.loop, bind.
    change (Final.processActionQueue w) with (0, w). cbv beta iota.
    change (Final.executeAction w) with (tt, w). cbv beta iota.
    unfold Final.processController, bind. rewrite Bx, Bs, Br, Bl.
    cbn [Z.eqb negb when ret].
    rewrite (move_at_rest_stops (ly stick) (rx stick) w Hy Hx).
    eexists. eexists. eexists. split; [reflexivity|].
    apply motors_off_app; [exact Hoff|]. repeat constructor.
  - subst w.
    cbv [Final.loop Final.reset Final.setSpeed Final.removePairedDevices
         bind ret gets millis emit set_stickReconnectTimer
         trace clock stickReconnectTimer currentAction nextAction
         lastActionStart fst snd].
    destruct (Final.STICK_RECONNECT_DELAY <? usub (to_ulong clk) timer);
      (eexists; eexists; eexists; split; [reflexivity|]).
    + repeat apply motors_off_app; try exact Hoff;
        try apply motors_off_stop; repeat constructor.
    + apply motors_off_app; [exact Hoff | apply motors_off_stop].
Qed.

(** X14.  From [setup] on, as long as no button is asserted and both sticks are
    inside the dead zone, with or without the link: no action starts and
    every duty cycle ever written is 0. *)
Theorem robot_left_alone_never_moves (boot : Z) (ticks : list Tick) :
  Forall (fun tk => at_rest (pad tk)) ticks ->
  let w := snd (Final.run ticks (snd (Final.setup (Final.power_on boot)))) in
  currentAction w = Final.Neutral /\
  nextAction w = Final.Neutral /\
  motors_off (trace w).
Proof.
  intros Hrest.
  assert (Hgen : forall last timer clk tr, motors_off tr ->
    exists w',
      Final.run ticks
        (mkWorld Final.Neutral Final.Neutral last timer clk tr) = (tt, w') /\
      currentAction w' = Final.Neutral /\ nextAction w' = Final.Neutral /\
      motors_off (trace w')).
  { induction Hrest as [| tk rest Hr _ IH]; intros last timer clk tr Hoff.
    - eexists. split; [reflexivity|]. cbn. auto.
    - destruct (idle_loop_at_rest (connected tk) (pad tk) last timer
                  (clk + idle tk) tr Hr Hoff)
        as (timer' & clk' & tr' & E & Hoff').
      destruct (IH last timer' clk' tr' Hoff') as (w' & Er & Hw').
      exists w'. split; [| exact Hw'].
      cbn [Final.run]. unfold bind at 1. cbn [delay].
      cbn [currentAction nextAction lastActionStart stickReconnectTimer
           clock trace].
      unfold bind at 1. rewrite E. exact Er. }
  destruct (Hgen (to_ulong (-100000)) 0 boot
              (stamp boot (PS4Begin :: setSpeed_events Final.pins 0 0)))
    as (w' & Er & Hw').
  { rewrite stop_events. repeat constructor. }
  change (snd (Final.setup (Final.power_on boot)))
    with (mkWorld Final.Neutral Final.Neutral (to_ulong (-100000)) 0 boot
            (stamp boot (PS4Begin :: setSpeed_events Final.pins 0 0))).
  rewrite Er. exact Hw'.
Qed.

Lemma robot_left_alone_never_moves_witness :
  let stick := mkController 9 (-10) false false false false in
  let ticks := [mkTick 20 true stick; mkTick 0 false stick;
                mkTick 5000 false stick; mkTick 1 true stick] in
  Forall (fun tk => at_rest (pad tk)) ticks /\
  currentAction
    (snd (Final.run ticks (snd (Final.setup (Final.power_on 3))))) =
    Final.Neutral /\
  nextAction
    (snd (Final.run ticks (snd (Final.setup (Final.power_on 3))))) =
    Final.Neutral /\
  motors_off
    (trace (snd (Final.run ticks (snd (Final.setup (Final.power_on 3)))))).
Proof.
  intros stick ticks.
  assert (H : Forall (fun tk => at_rest (pad tk)) ticks).
  { repeat constructor; simpl; lia. }
  split; [exact H | exact (robot_left_alone_never_moves 3 ticks H)].
Defined.

(** ** The first sketch of [sumo.ino] *)

Ltac exec1 :=
  cbv [Sumo1Loop.processActionQueue Sumo1Loop.checkCooldown
       Sumo1Loop.checkDebounce Sumo1Loop.reset Sumo1Loop.setSpeed
       Sumo1Loop.executeAction Sumo1Loop.processController
       Sumo1Loop.request Sumo1Loop.move Sumo1Loop.dash Sumo1Loop.spinR
       Sumo1Loop.spinL Sumo1Loop.setup Sumo1Loop.loop
       bind ret gets when millis emit delay set_currentAction
       set_nextAction set_lastActionStart set_stickReconnectTimer];
  cbn.

(** X18.  In the first sketch of [sumo.ino] a spin whose cooldown has passed
    ends with a stop and a wait of 100 ms inside [processActionQueue]:
    the clock has moved on by 100 when the queued action is made the
    running one, and that later time is its start time. *)
Theorem first_sketch_pauses_after_a_spin (w : World Sumo1Loop.Action) :
  currentAction w = Sumo1Loop.SpinR \/ currentAction w = Sumo1Loop.SpinL ->
  Sumo1Loop.SPIN_DURATION < usub (to_ulong (clock w)) (lastActionStart w) ->
  let w' := snd (Sumo1Loop.processActionQueue w) in
  currentAction w' = nextAction w /\
  nextAction w' = Sumo1Loop.Neutral /\
  clock w' = clock w + 100 /\
  trace w' = trace w ++ stamp (clock w) (setSpeed_events Sumo1.pins 0 0) /\
  lastActionStart w' =
    (if Sumo1Loop.Action_eqb (nextAction w) Sumo1Loop.Neutral
     then lastActionStart w else to_ulong (clock w + 100)).
Proof.
  intros Hspin Hexp.
  destruct w as [cur nxt last timer clk tr].
  cbn [currentAction clock lastActionStart] in Hspin, Hexp.
  apply Z.ltb_lt in Hexp.
  destruct Hspin as [-> | ->]; destruct nxt; exec1; rewrite Hexp; cbn;
    repeat split; reflexivity.
Qed.

Lemma first_sketch_pauses_after_a_spin_witness :
  let w := mkWorld Sumo1Loop.SpinR Sumo1Loop.Dash 0 0 301 [] in
  (currentAction w = Sumo1Loop.SpinR \/ currentAction w = Sumo1Loop.SpinL) /\
  Sumo1Loop.SPIN_DURATION < usub (to_ulong (clock w)) (lastActionStart w) /\
  currentAction (snd (Sumo1Loop.processActionQueue w)) = Sumo1Loop.Dash /\
  nextAction (snd (Sumo1Loop.processActionQueue w)) = Sumo1Loop.Neutral /\
  clock (snd (Sumo1Loop.processActionQueue w)) = 401 /\
  trace (snd (Sumo1Loop.processActionQueue w)) =
    stamp 301 (setSpeed_events Sumo1.pins 0 0) /\
  lastActionStart (snd (Sumo1Loop.processActionQueue w)) = 401.
Proof.
  intros w.
  assert (Hs : currentAction w = Sumo1Loop.SpinR
               \/ currentAction w = Sumo1Loop.SpinL) by (left; reflexivity).
  assert (He : Sumo1Loop.SPIN_DURATION
               < usub (to_ulong (clock w)) (lastActionStart w))
    by (vm_compute; reflexivity).
  split; [exact Hs|]. split; [exact He|].
  exact (first_sketch_pauses_after_a_spin w Hs He).
Defined.

(** X19.  In the first sketch of [sumo.ino] a spin has no coast phase: every
    iteration with the link whose queue step leaves the spin running
    drives the wheels against each other at full duty, at any time up to
    the cooldown. *)
Theorem first_sketch_spins_for_the_whole_cooldown (stick : Controller)
    (w : World Sumo1Loop.Action) :
  currentAction w = Sumo1Loop.SpinR \/ currentAction w = Sumo1Loop.SpinL ->
  usub (to_ulong (clock w)) (lastActionStart w) <= Sumo1Loop.SPIN_DURATION ->
  let w' := snd (Sumo1Loop.loop true stick w) in
  trace w' =
    trace w ++ stamp (clock w)
      (match currentAction w with
       | Sumo1Loop.SpinR => setSpeed_events Sumo1.pins 1 (-1)
       | _ => setSpeed_events Sumo1.pins (-1) 1
       end) /\
  currentAction w' = currentAction w /\
  clock w' = clock w + 50.
Proof.
  intros Hspin Hwait.
  destruct w as [cur nxt last timer clk tr].
  cbn [currentAction clock lastActionStart] in Hspin, Hwait.
  apply Z.ltb_ge in Hwait.
  destruct Hspin as [-> | ->]; destruct nxt;
    destruct (btn_x stick) eqn:Bx, (btn_r1 stick) eqn:Br,
             (btn_l1 stick) eqn:Bl;
    exec1; rewrite ?Hwait, ?Bx, ?Br, ?Bl; cbn;
    repeat match goal with
           | |- context [?c <? ?e] => destruct (c <? e); cbn
           end;
    repeat split; reflexivity.
Qed.

Lemma first_sketch_spins_for_the_whole_cooldown_witness :
  let stick := mkController 0 0 false false false false in
  let w := mkWorld Sumo1Loop.SpinL Sumo1Loop.Neutral 0 0 299 [] in
  (currentAction w = Sumo1Loop.SpinR \/ currentAction w = Sumo1Loop.SpinL) /\
  usub (to_ulong (clock w)) (lastActionStart w) <= Sumo1Loop.SPIN_DURATION /\
  trace (snd (Sumo1Loop.loop true stick w)) =
    stamp 299 (setSpeed_events Sumo1.pins (-1) 1) /\
  currentAction (snd (Sumo1Loop.loop true stick w)) = Sumo1Loop.SpinL /\
  clock (snd (Sumo1Loop.loop true stick w)) = 349.
Proof.
  intros stick w.
  assert (Hs : currentAction w = Sumo1Loop.SpinR
               \/ currentAction w = Sumo1Loop.SpinL) by (right; reflexivity).
  assert (He : usub (to_ulong (clock w)) (lastActionStart w)
               <= Sumo1Loop.SPIN_DURATION) by (vm_compute; discriminate).
  split; [exact Hs|]. split; [exact He|].
  exact (first_sketch_spins_for_the_whole_cooldown stick w Hs He).
Defined.

(** ** From a command to a duty cycle *)

Lemma Qabs_verify_cases (x : Q) :
  ((1 <= Qabs x)%Q /\ Qabs (verify x) == 1) \/
  ((Qabs x < 1)%Q /\ Qabs (verify x) == Qabs x).
Proof.
  unfold verify.
  destruct (Qltb_spec x (-1)) as [Hlo | Hlo].
  - left. split; [| reflexivity].
    rewrite Qabs_neg by lra. lra.
  - apply Qnot_lt_le in Hlo.
    destruct (Qltb_spec 1 x) as [Hhi | Hhi].
    + left. split; [| reflexivity]. rewrite Qabs_pos by lra. lra.
    + apply Qnot_lt_le in Hhi.
      destruct (Qlt_le_dec (Qabs x) 1) as [Hin | Hout].
      * right. split; [exact Hin | reflexivity].
      * left. split; [exact Hout|].
        apply Qle_antisym; [| exact Hout].
        apply Qabs_Qle_condition. split; assumption.
Qed.

Lemma floor_bounds (q : Q) :
  (inject_Z (Qfloor q) <= q < inject_Z (Qfloor q) + 1)%Q.
Proof.
  split; [apply Qfloor_le|].
  pose proof (Qlt_floor q) as H. rewrite inject_Z_plus in H. exact H.
Qed.

Lemma duty_of_command (x : Q) :
  duty_of (int_of_float (Qabs (verify x) * 255)) x.
Proof.
  unfold duty_of.
  assert (Hnn : (0 <= Qabs (verify x) * 255)%Q)
    by (pose proof (Qabs_nonneg (verify x)); nra).
  rewrite int_of_float_floor by exact Hnn.
  set (q := (Qabs (verify x) * 255)%Q) in *.
  pose proof (floor_bounds q) as [Hlo Hhi].
  split; [split; assumption|].
  pose proof (Qabs_nonneg x) as Hx.
  destruct (Qabs_verify_cases x) as [[Hbig E] | [Hsmall E]].
  - assert (Eq : q == inject_Z 255) by (subst q; rewrite E; reflexivity).
    assert (Ef : Qfloor q = 255) by (rewrite Eq; apply Qfloor_Z).
    split.
    + split; [intros _; exact Hbig | intros _; exact Ef].
    + split; [rewrite Ef; discriminate | intros H; lra].
  - assert (Eq : q == Qabs x * 255) by (subst q; rewrite E; reflexivity).
    split.
    + split; [| intros H; lra].
      intros Ef. rewrite Ef in Hlo. unfold inject_Z in Hlo. lra.
    + split.
      * intros Ef. rewrite Ef in Hhi. unfold inject_Z in Hhi. lra.
      * intros H.
        assert (H0 : (0 <= q)%Q) by exact Hnn.
        assert (H1 : (q < 1)%Q) by lra.
        assert (L0 : 0 <= Qfloor q)
          by (change 0 with (Qfloor 0); apply Qfloor_resp_le; exact H0).
        assert (L1 : Qfloor q <= 0).
        { apply Z.lt_succ_r. unfold Z.succ.
          rewrite Zlt_Qlt, inject_Z_plus.
          apply Qle_lt_trans with q; [exact Hlo|].
          unfold inject_Z. lra. }
        lia.
Qed.

(** X7.  The two duty cycles [setSpeed] writes are each 255 times the clamped
    magnitude of the command, rounded down: 255 exactly for magnitudes of
    1 and more, 0 exactly for magnitudes under 1/255. *)
Theorem setSpeed_duty_is_rounded_down (p : Pins) (l r : Q) :
  exists dr dl : Z,
    setSpeed_events p l r =
      fst (direction (PIN_R_FWD p) (PIN_R_BWD p) (verify r)) ++
      fst (direction (PIN_L_FWD p) (PIN_L_BWD p) (verify l)) ++
      [AnalogWrite (PIN_R_SPD p) dr; AnalogWrite (PIN_L_SPD p) dl] /\
    duty_of dr r /\ duty_of dl l.
Proof.
  exists (int_of_float (Qabs (verify r) * 255)),
         (int_of_float (Qabs (verify l) * 255)).
  split; [apply setSpeed_events_shape|].
  split; apply duty_of_command.
Qed.

(** ** Names in the diagnostics *)

(** X20.  [getActionName] gives both spins the name of the right spin and
    tells all other actions apart: two actions share a name exactly when
    they are equal or are the two spins. *)
Theorem getActionName_confuses_the_spins (a b : Final.Action) :
  Diagnostics.getActionName a = Diagnostics.getActionName b <->
  a = b \/ (is_spin a = true /\ is_spin b = true).
Proof.
  split.
  - destruct a, b; intros H; try discriminate H;
      first [left; reflexivity | right; split; reflexivity].
  - intros [-> | [Ha Hb]]; [reflexivity|].
    destruct a, b; try discriminate Ha; try discriminate Hb; reflexivity.
Qed.
